(** * Eclair topping optimiser: requirement compilation and valuation

    A shallow embedding of [topping_bot/optimize/toppings.py] and
    [topping_bot/optimize/requirements.py], followed by the properties of
    the specification that they decide.

    Conventions.
    - A Python [Decimal] is modelled by its numeric value, a canonical
      rational ([Qc]); the 28-digit context precision is not modelled.
    - A raised exception is an [Err] in the [result] monad.
    - Dictionaries whose iteration order is observable are association
      lists in insertion order; the others are [gmap]s. *)

From Stdlib Require Import QArith Qcanon Lqa.
From stdpp Require Import gmap strings list fin_maps numbers pretty sorting.

Open Scope Qc_scope.

(* ===================================================================== *)
(** * Decimals *)
(* ===================================================================== *)

Abbreviation Decimal := Qc.

(** [Decimal(n)] for an integer literal [n]. *)
Definition dec (n : Z) : Decimal := Q2Qc (inject_Z n).

(** [Decimal("a.b")] given as a fraction. *)
Definition decq (q : Q) : Decimal := Q2Qc q.

(** Python's two-argument [max] and [min]: the first argument is kept
    unless the second is strictly better. *)
Definition dmax (a b : Decimal) : Decimal := if decide (a < b) then b else a.
Definition dmin (a b : Decimal) : Decimal := if decide (b < a) then b else a.

(** [max(xs, default=d)]. *)
Definition dmax_list (d : Decimal) (xs : list Decimal) : Decimal :=
  match xs with
  | [] => d
  | x :: xs' => foldl dmax x xs'
  end.

(* ===================================================================== *)
(** * Exceptions *)
(* ===================================================================== *)

(** The exceptions the modelled code raises.  The formatted message of an
    [Exception] or [ValueError] is kept as its parts. *)
Inductive error : Type :=
  | KeyError (key : string)
  | IndexError
  | EnumValueError (value : string)            (* [Type(x)], [Resonance(x)] *)
  | InvalidOperation                           (* [Decimal(x)] on a non-number *)
  | TypeError
  | EnumValueErrorNum (value : Decimal)
  | OneObjectiveMustBeSpecified (name : string)
  | CouldNotParse (name requirement : string)
  | RelativeTargetUnseen (name : string)
  | OnlyOneObjective (name : string)
  | ObjectiveNeedsMax (name : string)
  | ComboNeedsSubstats (name : string)
  | OnlyOneTart (name : string)
  | CouldNotParseTart (name line : string)
  | CouldNotParseBiscuit (name line : string)
  | ImpossibleRequirements (name : string) (low : Decimal) (stat : string)
                           (high : Decimal).

Inductive result (A : Type) : Type :=
  | Ok (a : A)
  | Err (e : error).
Arguments Ok {A} a.
Arguments Err {A} e.

#[global] Instance result_ret : MRet result := λ A a, Ok a.
#[global] Instance result_bind : MBind result := λ A B f m,
  match m with
  | Ok a => f a
  | Err e => Err e
  end.
#[global] Instance result_fmap : FMap result := λ A B f m,
  match m with
  | Ok a => Ok (f a)
  | Err e => Err e
  end.

Definition is_Ok {A} (r : result A) : Prop := ∃ a, r = Ok a.
Definition is_Err {A} (r : result A) : Prop := ∃ e, r = Err e.

(** A [for] loop whose body may raise. *)
Fixpoint foldlM {A B} (f : A → B → result A) (a : A) (l : list B) : result A :=
  match l with
  | [] => Ok a
  | x :: l' => a' ← f a x; foldlM f a' l'
  end.

(** A list comprehension whose element expression may raise. *)
Fixpoint mapMr {A B} (f : A → result B) (l : list A) : result (list B) :=
  match l with
  | [] => Ok []
  | x :: l' => y ← f x; ys ← mapMr f l'; Ok (y :: ys)
  end.

(** A list comprehension whose condition may raise. *)
Fixpoint filterMr {A} (f : A → result bool) (l : list A) : result (list A) :=
  match l with
  | [] => Ok []
  | x :: l' =>
      b ← f x; ys ← filterMr f l'; Ok (if b : bool then x :: ys else ys)
  end.

(* ===================================================================== *)
(** * toppings.py: the stat catalogue *)
(* ===================================================================== *)

Inductive Resonance : Type :=
  | NORMAL | MOONKISSED | TRIO | DRACONIC | TROPICAL_ROCK | SEA_SALT
  | RADIANT_CHEESE | FROSTED_CRYSTAL | LIFESPROUTING | DESTRUCTIVE
  | FRAGRANT | IRIS_GEM | DECEITFUL | TRUTHFUL | SACRED_VOW.

#[global] Instance Resonance_eq_dec : EqDecision Resonance.
Proof. solve_decision. Defined.

Definition Resonance_members : list Resonance :=
  [NORMAL; MOONKISSED; TRIO; DRACONIC; TROPICAL_ROCK; SEA_SALT;
   RADIANT_CHEESE; FROSTED_CRYSTAL; LIFESPROUTING; DESTRUCTIVE;
   FRAGRANT; IRIS_GEM; DECEITFUL; TRUTHFUL; SACRED_VOW].

Definition Resonance_value (r : Resonance) : string :=
  match r with
  | NORMAL => "Normal" | MOONKISSED => "Moonkissed" | TRIO => "Trio"
  | DRACONIC => "Draconic" | TROPICAL_ROCK => "Tropical Rock"
  | SEA_SALT => "Sea Salt" | RADIANT_CHEESE => "Radiant Cheese"
  | FROSTED_CRYSTAL => "Frosted Crystal" | LIFESPROUTING => "Life-sprouting"
  | DESTRUCTIVE => "Destructive" | FRAGRANT => "Fragrant"
  | IRIS_GEM => "Iris Gem" | DECEITFUL => "Deceitful"
  | TRUTHFUL => "Truthful" | SACRED_VOW => "Sacred Vow"
  end.

(** [Resonance(s)]: enum lookup by value. *)
Definition Resonance_of (s : string) : result Resonance :=
  match find (λ r, bool_decide (Resonance_value r = s)) Resonance_members with
  | Some r => Ok r
  | None => Err (EnumValueError s)
  end.

(** The enum [Type] of toppings.py ([Type] is reserved in Rocq). *)
Inductive Type_ : Type :=
  (* in-game substats *)
  | DMGRES | ATK | CD | ATKSPD | CRIT | HP | BUFF | DEF | BUFFRES | CRITRES
  (* in-game non-standard substats (biscuit) *)
  | DARK_DMG | ELEC_DMG | FIRE_DMG | EARTH_DMG | POISON_DMG | LIGHT_DMG
  (* in-game attributes *)
  | CRIT_DMG | ATK_MULT
  (* custom objective functions *)
  | COMBO | E_DMG | VITALITY
  (* helpers *)
  | RNG | NONE.

#[global] Instance Type_eq_dec : EqDecision Type_.
Proof. solve_decision. Defined.

Definition Type_members : list Type_ :=
  [DMGRES; ATK; CD; ATKSPD; CRIT; HP; BUFF; DEF; BUFFRES; CRITRES;
   DARK_DMG; ELEC_DMG; FIRE_DMG; EARTH_DMG; POISON_DMG; LIGHT_DMG;
   CRIT_DMG; ATK_MULT; COMBO; E_DMG; VITALITY; RNG; NONE].

Definition Type_value (t : Type_) : string :=
  match t with
  | DMGRES => "DMG Resist" | ATK => "ATK" | CD => "Cooldown"
  | ATKSPD => "ATK SPD" | CRIT => "CRIT%" | HP => "HP"
  | BUFF => "Amplify Buff" | DEF => "DEF" | BUFFRES => "Debuff Resist"
  | CRITRES => "CRIT Resist"
  | DARK_DMG => "DARK DMG" | ELEC_DMG => "ELEC DMG" | FIRE_DMG => "FIRE DMG"
  | EARTH_DMG => "EARTH DMG" | POISON_DMG => "POISON DMG"
  | LIGHT_DMG => "LIGHT DMG"
  | CRIT_DMG => "CRIT DMG" | ATK_MULT => "ATK MULT"
  | COMBO => "Combo" | E_DMG => "E[DMG]" | VITALITY => "Vitality"
  | RNG => "RNG" | NONE => "None"
  end.

(** The member name, [t.name]. *)
Definition Type_name (t : Type_) : string :=
  match t with
  | DMGRES => "DMGRES" | ATK => "ATK" | CD => "CD" | ATKSPD => "ATKSPD"
  | CRIT => "CRIT" | HP => "HP" | BUFF => "BUFF" | DEF => "DEF"
  | BUFFRES => "BUFFRES" | CRITRES => "CRITRES"
  | DARK_DMG => "DARK_DMG" | ELEC_DMG => "ELEC_DMG" | FIRE_DMG => "FIRE_DMG"
  | EARTH_DMG => "EARTH_DMG" | POISON_DMG => "POISON_DMG"
  | LIGHT_DMG => "LIGHT_DMG"
  | CRIT_DMG => "CRIT_DMG" | ATK_MULT => "ATK_MULT"
  | COMBO => "COMBO" | E_DMG => "E_DMG" | VITALITY => "VITALITY"
  | RNG => "RNG" | NONE => "NONE"
  end.

Definition Type_lookup (s : string) : option Type_ :=
  find (λ t, bool_decide (Type_value t = s)) Type_members.

(** [Type(s)]: enum lookup by value, [ValueError] when there is none. *)
Definition Type_of (s : string) : result Type_ :=
  match Type_lookup s with
  | Some t => Ok t
  | None => Err (EnumValueError s)
  end.

Lemma Type_lookup_value t : Type_lookup (Type_value t) = Some t.
Proof. by destruct t. Qed.


Lemma Type_name_inj : Inj (=) (=) Type_name.
Proof. intros [] []; simpl; congruence. Qed.

#[global] Instance Type_countable : Countable Type_ :=
  inj_countable Type_value Type_lookup Type_lookup_value.

Record StatInfo : Type := {
  info_name : string;
  info_short : string;
  info_medium : string;
  info_filename : string;
  info_value : Decimal;
  combos : list (nat * Decimal);
  view_combos : list (nat * Decimal);
  minsub : Decimal;
  maxsub : Decimal;
}.

Definition schedule (a b c d : Z) : list (nat * Decimal) :=
  [(2%nat, dec a); (3%nat, dec b); (5%nat, dec c); (6%nat, dec d)].

(** The table [INFO]; [None] is the [KeyError] of [INFO[t]]. *)
Definition INFO (t : Type_) : option StatInfo :=
  match t with
  | DMGRES => Some {| info_name := "Solid Almond"; info_short := "DRS";
      info_medium := "DMGRES"; info_filename := "dmgres";
      info_value := decq (41 # 10);
      combos := schedule 3 7 8 10; view_combos := schedule 3 7 8 10;
      minsub := dec 1; maxsub := dec 6 |}
  | ATK => Some {| info_name := "Searing Raspberry"; info_short := "ATK";
      info_medium := "ATK"; info_filename := "atk";
      info_value := dec 9;
      combos := schedule 4 8 10 12; view_combos := schedule 4 8 10 12;
      minsub := dec 1; maxsub := dec 3 |}
  | CD => Some {| info_name := "Swift Chocolate"; info_short := "CD";
      info_medium := "CD"; info_filename := "cd";
      info_value := dec 3;
      combos := schedule 2 4 5 6; view_combos := schedule 2 4 5 6;
      minsub := dec 1; maxsub := dec 2 |}
  | ATKSPD => Some {| info_name := "Bouncy Caramel"; info_short := "SPD";
      info_medium := "ATKSPD"; info_filename := "atkspd";
      info_value := decq (41 # 10);
      combos := schedule 7 8 10 12; view_combos := schedule 7 8 10 12;
      minsub := dec 1; maxsub := dec 3 |}
  | CRIT => Some {| info_name := "Juicy Apple Jelly"; info_short := "CRT";
      info_medium := "CRIT%"; info_filename := "crit";
      info_value := dec 9;
      combos := schedule 4 6 8 10; view_combos := schedule 4 6 8 10;
      minsub := dec 1; maxsub := dec 3 |}
  | HP => Some {| info_name := "Healthy Peanut"; info_short := "HP";
      info_medium := "HP"; info_filename := "hp";
      info_value := dec 9;
      combos := schedule 4 10 12 15; view_combos := schedule 4 10 12 15;
      minsub := dec 1; maxsub := dec 3 |}
  | BUFF => Some {| info_name := "Sweet Candy"; info_short := "BUF";
      info_medium := "BUFF"; info_filename := "buff";
      info_value := dec 3;
      combos := schedule 9 10 11 12; view_combos := schedule 9 10 11 12;
      minsub := dec 1; maxsub := dec 2 |}
  | DEF => Some {| info_name := "Hard Walnut"; info_short := "DEF";
      info_medium := "DEF"; info_filename := "def";
      info_value := dec 9;
      combos := schedule 10 13 20 25; view_combos := schedule 10 13 20 25;
      minsub := dec 1; maxsub := dec 3 |}
  | BUFFRES => Some {| info_name := "Fresh Kiwi"; info_short := "DBF";
      info_medium := "BUFFRES"; info_filename := "dbuff";
      info_value := dec 3;
      combos := schedule 10 11 12 13; view_combos := schedule 10 11 12 13;
      minsub := dec 1; maxsub := dec 2 |}
  | CRITRES => Some {| info_name := "Hearty Hazelnut"; info_short := "CRS";
      info_medium := "CRITRES"; info_filename := "critres";
      info_value := decq (45 # 10);
      combos := schedule 20 25 30 35; view_combos := schedule 20 25 30 35;
      minsub := dec 3; maxsub := dec 4 |}
  | _ => None
  end.

(** [INFO[t]]. *)
Definition INFO_get (t : Type_) : result StatInfo :=
  match INFO t with
  | Some i => Ok i
  | None => Err (KeyError (Type_name t))
  end.

(* ===================================================================== *)
(** * toppings.py: toppings and topping sets *)
(* ===================================================================== *)

(** A substat value: a [Decimal], or the float infinity that
    [Topping.__init__] lets through unconverted. *)
Inductive SubValue : Type :=
  | Finite (d : Decimal)
  | Infinity.

#[global] Instance SubValue_eq_dec : EqDecision SubValue.
Proof. solve_decision. Defined.

(** An instance of [Topping].  [topping_id] is the allocation identity
    [id(self)]: two instances alive together have different ids. *)
Record Topping : Type := {
  topping_id : nat;
  resonance : option Resonance;
  flavor : Type_;
  substats : list (Type_ * SubValue);
}.

(** [Topping.__init__(substats, resonance)] allocating at [addr].  The
    value strings are given by the number they denote. *)
Definition Topping_init (addr : nat) (raw : list (string * SubValue))
    (res : option Resonance) : result Topping :=
  fl ← match raw with
       | [] => Err IndexError
       | (s, _) :: _ => Type_of s
       end;
  subs ← mapMr (λ '(s, v), t ← Type_of s; Ok (t, v)) raw;
  Ok {| topping_id := addr; resonance := res; flavor := fl; substats := subs |}.

(** [Topping.__eq__]. *)
Definition Topping_eq (self other : Topping) : bool :=
  bool_decide (substats self = substats other)
  && bool_decide (resonance self = resonance other).

(** [Topping.__hash__]. *)
Definition Topping_hash (self : Topping) : nat := topping_id self.

(** What Python's [sum] and [+] range over here: the [int] zero that
    [sum] starts from, a [Decimal], or the float infinity. *)
Inductive Total : Type :=
  | IntZero
  | Num (d : Decimal)
  | FloatInf.

#[global] Instance Total_eq_dec : EqDecision Total.
Proof. solve_decision. Defined.

Definition Total_of (v : SubValue) : Total :=
  match v with
  | Finite d => Num d
  | Infinity => FloatInf
  end.

(** [a + b].  A [Decimal] and a [float] cannot be added: [TypeError]. *)
Definition Total_add (a b : Total) : result Total :=
  match a, b with
  | IntZero, x | x, IntZero => Ok x
  | Num x, Num y => Ok (Num (x + y))
  | FloatInf, FloatInf => Ok FloatInf
  | Num _, FloatInf | FloatInf, Num _ => Err TypeError
  end.

(** [sum(xs)]. *)
Definition Total_sum (xs : list Total) : result Total :=
  foldlM Total_add IntZero xs.

(** [Topping.value(substats)] with the argument already a tuple. *)
Definition Topping_value (self : Topping) (stats : list Type_) : result Total :=
  Total_sum (Total_of <$> (filter (λ sv, sv.1 ∈ stats) (substats self)).*2).

(** [a > b], [a <= b] between a substat value and a [Decimal]. *)
Definition SubValue_gt (v : SubValue) (d : Decimal) : bool :=
  match v with
  | Finite x => bool_decide (d < x)
  | Infinity => true
  end.

Definition SubValue_between (lo : Decimal) (v : SubValue) (hi : Decimal)
    : bool :=
  match v with
  | Finite x => bool_decide (lo ≤ x) && bool_decide (x ≤ hi)
  | Infinity => false
  end.

(** The last loop of [validate]: [False] at the first secondary stat out
    of its bounds, [KeyError] at one without an [INFO] entry. *)
Fixpoint validate_subs (subs : list (Type_ * SubValue)) : result bool :=
  match subs with
  | [] => Ok true
  | (substat, value) :: rest =>
      info ← INFO_get substat;
      if SubValue_between (minsub info) value (maxsub info)
      then validate_subs rest
      else Ok false
  end.

(** [Topping.validate]. *)
Definition validate (self : Topping) : result bool :=
  match substats self with
  | [] => Err IndexError
  | (substat, value) :: rest =>
      info ← INFO_get substat;
      if SubValue_gt value (info_value info) then Ok false
      else if bool_decide (NoDup rest.*1) then validate_subs rest
      else Ok false
  end.

Record ToppingSet : Type := { toppings : list Topping }.

(** [len([topping for topping in toppings if topping.flavor == substat])],
    which is also [sum(1 for t in combo if t.flavor == s)]. *)
Definition matching_count (ts : list Topping) (substat : Type_) : nat :=
  length (filter (λ t, flavor t = substat) ts).

(** The loop of [set_effect] over the reversed schedule. *)
Fixpoint first_satisfied (tiers : list (nat * Decimal)) (count : nat)
    : nat * Decimal :=
  match tiers with
  | [] => (0%nat, dec 0)
  | (required_count, set_bonus) :: rest =>
      if bool_decide (required_count ≤ count)%nat
      then (required_count, set_bonus)
      else first_satisfied rest count
  end.

(** [ToppingSet.set_effect(substat)]. *)
Definition set_effect (self : ToppingSet) (substat : Type_)
    : result (nat * Decimal) :=
  info ← INFO_get substat;
  Ok (first_satisfied (reverse (combos info))
        (matching_count (toppings self) substat)).

(** The total set-bonus value of a set over several stats, the
    [set_effect(substat)[1]] summands of [ToppingSet.value]. *)
Definition set_effect_total (self : ToppingSet) (stats : list Type_)
    : result Decimal :=
  foldlM (λ acc s, e ← set_effect self s; Ok (acc + e.2)) (dec 0) stats.

(** [ToppingSet.raw(substat, tart)]; [tart] is read through [substat]
    and [target], the attributes of a parsed tart line. *)
Definition raw (self : ToppingSet) (substat : Type_)
    (tart : option (Type_ * Decimal)) : result Total :=
  total ← foldlM (λ total topping,
             v ← Topping_value topping [substat]; Total_add total v)
           IntZero (toppings self);
  match tart with
  | Some (tart_substat, tart_target) =>
      if bool_decide (tart_substat = substat)
      then Total_add total (Num tart_target)
      else Ok total
  | None => Ok total
  end.



(* ===================================================================== *)
(** * Ordered dictionaries *)
(* ===================================================================== *)

(** A Python [dict] whose iteration order is observed: keys in order of
    first insertion, a later store replacing the value in place. *)
Section odict.
Context {K V : Type} `{EqDecision K}.

Fixpoint odict_get (k : K) (d : list (K * V)) : option V :=
  match d with
  | [] => None
  | (k', v) :: d' => if decide (k = k') then Some v else odict_get k d'
  end.

Fixpoint odict_set (k : K) (v : V) (d : list (K * V)) : list (K * V) :=
  match d with
  | [] => [(k, v)]
  | (k', v') :: d' =>
      if decide (k = k') then (k', v) :: d' else (k', v') :: odict_set k v d'
  end.

(** [{key(x): x for x in xs}]. *)
Definition odict_of (key : V → K) (xs : list V) : list (K * V) :=
  foldl (λ d x, odict_set (key x) x d) [] xs.
End odict.

(* ===================================================================== *)
(** * validity.py and objectives.py: the types requirements.py reads *)
(* ===================================================================== *)

(** The comparison of a bound, [op.str] being [">="] or ["<="]. *)
Inductive Op : Type := GE | LE.

#[global] Instance Op_eq_dec : EqDecision Op.
Proof. solve_decision. Defined.

Definition Op_str (o : Op) : string :=
  match o with GE => ">=" | LE => "<=" end.

(** Modelled from the spec: validity.py is not among the sources.  The
    Constraint variants of the data model, with the attributes that
    requirements.py reads from them: [substat], [op], [target],
    [low_target], [high_target], [cookie]. *)
Record Normal : Type := {
  substat : Type_;
  op : Op;
  target : Decimal;
}.

Record Range : Type := {
  range_substat : Type_;
  low_target : Decimal;
  high_target : Decimal;
}.

Record Equality : Type := {
  equality_substat : Type_;
  equality_target : Decimal;
}.

Record Relative : Type := {
  relative_substat : Type_;
  relative_op : Op;
  cookie : string;
}.

Inductive Valid : Type :=
  | VNormal (v : Normal)
  | VRange (v : Range)
  | VEquality (v : Equality)
  | VRelative (v : Relative).

(** [line.substat]. *)
Definition Valid_substat (line : Valid) : Type_ :=
  match line with
  | VNormal v => substat v
  | VRange v => range_substat v
  | VEquality v => equality_substat v
  | VRelative v => relative_substat v
  end.

(** Modelled from the spec: the hash and equality of a converted
    constraint, "the same stat with the same comparison direction". *)
Definition Normal_key (v : Normal) : Type_ * Op := (substat v, op v).

(** The [{min, max}] entry of a Special objective's [bounds]. *)
Record Bounds : Type := { bmin : Decimal; bmax : Decimal }.

(** Modelled from the spec: objectives.py is not among the sources.  The
    Objective variants; a Combo reads its weights from the modifier vector
    it was given, the two Special objectives also carry [bounds]. *)
Inductive Objective : Type :=
  | Single (substat : Type_)
  | Combo (types : list Type_) (mods : gmap Type_ Decimal)
  | EDMG (mods : gmap Type_ Decimal) (bounds : gmap Type_ Bounds)
  | Vitality (mods : gmap Type_ Decimal) (bounds : gmap Type_ Bounds).

(** A read of the [defaultdict(Decimal)] of modifiers. *)
Definition mods_get (mods : gmap Type_ Decimal) (stat : Type_) : Decimal :=
  default (dec 0) (mods !! stat).

(** Modelled from the spec: the weight of a stat in a Combo objective is
    its modifier-vector total. *)
Definition Combo_weight (o : Objective) (stat : Type_) : option Decimal :=
  match o with
  | Combo _ mods => Some (mods_get mods stat)
  | _ => None
  end.

Definition Objective_mods (o : Objective) : option (gmap Type_ Decimal) :=
  match o with
  | Single _ => None
  | Combo _ m | EDMG m _ | Vitality m _ => Some m
  end.

Definition Special_bounds (o : Objective) : option (gmap Type_ Bounds) :=
  match o with
  | EDMG _ b | Vitality _ b => Some b
  | _ => None
  end.

Definition with_bounds (o : Objective) (b : gmap Type_ Bounds) : Objective :=
  match o with
  | EDMG m _ => EDMG m b
  | Vitality m _ => Vitality m b
  | _ => o
  end.

(* ===================================================================== *)
(** * requirements.py: the document *)
(* ===================================================================== *)

(** A scalar or list read from the YAML document.  A value that
    [Decimal(...)] accepts is given by the number it denotes. *)
Inductive YVal : Type :=
  | YStr (s : string)
  | YNum (d : Decimal)
  | YList (l : list string).

(** An entry of a [requirements], [tart] or [biscuit] list. *)
Inductive YItem : Type :=
  | IStr (s : string)
  | IDict (d : list (string * YVal))
  | IOther.

(** A declared modifier [{source: ..., value: ...}]. *)
Record Buff : Type := { source : string; value : Decimal }.

Record CookieDoc : Type := {
  doc_name : string;
  doc_requirements : option (list YItem);
  doc_resonant : option (list string);
  doc_tart : option (list YItem);
  doc_biscuit : option (list YItem);
}.

Record Document : Type := {
  modifiers : option (list (string * list Buff));
  leaderboard : option (list (string * Z));
  cookies : option (list CookieDoc);
}.

Definition DEFAULT_MODIFIERS : list (Type_ * list (string * Decimal)) :=
  [ (ATK, [("Base", dec 100)]);
    (CRIT, [("Base", dec 5); ("Eerie Haunted House Landmark", dec 8)]);
    (CRIT_DMG, [("Base", dec 150); ("CRIT DMG Bonus Lab", dec 20);
                ("Chocolate Alter of the Fallen Landmark", dec 20)]);
    (HP, [("Base", dec 100)]) ].

(** [DEFAULT_MODIFIERS.get(t, {})]. *)
Definition DEFAULT_MODIFIERS_get (t : Type_) : list (string * Decimal) :=
  default [] (odict_get t DEFAULT_MODIFIERS).

(** The rewrite of a legacy [max: E[Vit]] clause. *)
Definition convert_requirement (requirement : YItem) : YItem :=
  match requirement with
  | IDict d =>
      match odict_get "max" d with
      | Some (YStr m) =>
          if bool_decide (m = "E[Vit]") then
            IDict (("max", YStr "Vitality") :: filter (λ kv, kv.1 ≠ "max") d)
          else requirement
      | _ => requirement
      end
  | _ => requirement
  end.

Definition sanitize_cookie (cookie : CookieDoc) : CookieDoc :=
  {| doc_name := doc_name cookie;
     doc_requirements := map convert_requirement <$> doc_requirements cookie;
     doc_resonant := doc_resonant cookie;
     doc_tart := doc_tart cookie;
     doc_biscuit := doc_biscuit cookie |}.

(** The test [mod["source"] not in DEFAULT_MODIFIERS.get(Type(substat), {})]. *)
Definition keep_mod (substat : string) (mod_ : Buff) : result bool :=
  t ← Type_of substat;
  Ok (match odict_get (source mod_) (DEFAULT_MODIFIERS_get t) with
      | Some _ => false
      | None => true
      end).

(** [[mod for mod in mods if ...]]. *)
Definition filter_mods (substat : string) (mods : list Buff)
    : result (list Buff) :=
  filterMr (keep_mod substat) mods.

(** The loop that builds [filtered_mods]. *)
Definition filter_step (filtered_mods : list (string * list Buff))
    (item : string * list Buff) : result (list (string * list Buff)) :=
  let '(substat, mods) := item in
  filtered_substat ← filter_mods substat mods;
  match filtered_substat with
  | [] => Ok filtered_mods
  | _ => Ok (odict_set substat filtered_substat filtered_mods)
  end.

(** [sanitize], from the loaded document to the document written back. *)
Definition sanitize (requirements : Document) (rem_leaderboard : bool)
    : result Document :=
  let leaderboard' :=
    if rem_leaderboard then None else leaderboard requirements in
  let cookies' := map sanitize_cookie <$> cookies requirements in
  filtered_mods ← foldlM filter_step [] (default [] (modifiers requirements));
  let modifiers' :=
    match filtered_mods with
    | [] => modifiers requirements
    | _ => Some filtered_mods
    end in
  Ok {| modifiers := modifiers'; leaderboard := leaderboard';
        cookies := cookies' |}.

(* ===================================================================== *)
(** * requirements.py: the class [Requirements] *)
(* ===================================================================== *)

Module Requirements.

(** The attributes of an instance.  [_adjusted_valid] is [None] until
    the setter of [adjusted_valid] has run. *)
Record t : Type := {
  name : string;
  valid : list Valid;
  objective : Objective;
  mods : gmap Type_ Decimal;
  resonance : list Resonance;
  tart : option Equality;
  biscuit : option (list Equality);
  weight : option Z;
  _adjusted_valid : option (list Normal);
}.

(** [Requirements.__init__]. *)
Definition init (name : string) (valid : list Valid)
    (objective : option Objective) (mods : gmap Type_ Decimal)
    (resonance : list Resonance) (tart : option Equality)
    (biscuit : option (list Equality)) (weight : option Z) : result t :=
  match objective with
  | None => Err (OneObjectiveMustBeSpecified name)
  | Some o =>
      Ok {| name := name; valid := valid; objective := o; mods := mods;
            resonance := resonance; tart := tart; biscuit := biscuit;
            weight := weight; _adjusted_valid := None |}
  end.

(** The loop body of [merged_biscuit]. *)
Definition merge_biscuit_line (merged : list (string * Equality))
    (curr_line : Equality) : list (string * Equality) :=
  let substat_name := Type_name (equality_substat curr_line) in
  match odict_get substat_name merged with
  | Some m =>
      odict_set substat_name
        {| equality_substat := equality_substat m;
           equality_target := equality_target m + equality_target curr_line |}
        merged
  | None => odict_set substat_name curr_line merged
  end.

(** The property [merged_biscuit]. *)
Definition merged_biscuit (self : t) : option (list Equality) :=
  match biscuit self with
  | None | Some [] => None
  | Some lines => Some (foldl merge_biscuit_line [] lines).*2
  end.

(** [max(x - biscuit_line_value, 0)]. *)
Definition offset (x biscuit_line_value : Decimal) : Decimal :=
  dmax (x - biscuit_line_value) (dec 0).

(** The [isinstance] dispatch of [adjusted_valid]. *)
Definition adjust_line (curr_adjusted_valid : Valid)
    (biscuit_line_value : Decimal) : Valid :=
  match curr_adjusted_valid with
  | VRange v =>
      VRange {| range_substat := range_substat v;
                low_target := offset (low_target v) biscuit_line_value;
                high_target := offset (high_target v) biscuit_line_value |}
  | VEquality v =>
      VEquality {| equality_substat := equality_substat v;
                   equality_target :=
                     offset (equality_target v) biscuit_line_value |}
  | VNormal v =>
      VNormal {| substat := substat v; op := op v;
                 target := offset (target v) biscuit_line_value |}
  | VRelative v => VRelative v
  end.

Definition adjust_biscuit_line (adjusted_valid : list (string * Valid))
    (curr_biscuit_line : Equality) : list (string * Valid) :=
  let substat_name := Type_name (equality_substat curr_biscuit_line) in
  match odict_get substat_name adjusted_valid with
  | Some curr_adjusted_valid =>
      odict_set substat_name
        (adjust_line curr_adjusted_valid (equality_target curr_biscuit_line))
        adjusted_valid
  | None => adjusted_valid
  end.

(** The getter of the property [adjusted_valid]. *)
Definition adjusted_valid (self : t) : list Valid :=
  match _adjusted_valid self with
  | Some l => VNormal <$> l
  | None =>
      let adjusted_valid :=
        odict_of (λ line, Type_name (Valid_substat line)) (valid self) in
      match merged_biscuit self with
      | Some (b :: bs) =>
          (foldl adjust_biscuit_line adjusted_valid (b :: bs)).*2
      | _ => adjusted_valid.*2
      end
  end.

(** [max] or [min] of the stored and the new constraint by [target],
    chosen by the direction of the new one. *)
Definition extreme (stored new : Normal) : Normal :=
  match op new with
  | GE => if decide (target stored < target new) then new else stored
  | LE => if decide (target new < target stored) then new else stored
  end.

(** The body of the loop filling [collapsed], after [fuzz]. *)
Definition collapse_step (collapsed : list (Type_ * Op * Normal))
    (valid : Normal) : list (Type_ * Op * Normal) :=
  match odict_get (Normal_key valid) collapsed with
  | Some stored =>
      odict_set (Normal_key valid) (extreme stored valid) collapsed
  | None => odict_set (Normal_key valid) valid collapsed
  end.

(** The duplicate-collapse step: [list(collapsed.values())]. *)
Definition collapse (l : list Normal) : list Normal :=
  (foldl collapse_step [] l).*2.

(** [matched[valid.substat][valid.op.str] = valid.target]. *)
Definition match_step (matched : list (Type_ * list (Op * Decimal)))
    (valid : Normal) : list (Type_ * list (Op * Decimal)) :=
  odict_set (substat valid)
    (odict_set (op valid) (target valid)
       (default [] (odict_get (substat valid) matched)))
    matched.

(** The test on one stat's bounds.  The message reads [bounds['>=']],
    which is a [KeyError] when only a negative ceiling is present. *)
Definition check_bounds (name : string) (u : unit)
    (item : Type_ * list (Op * Decimal)) : result unit :=
  let '(s, bounds) := item in
  match odict_get LE bounds with
  | None => Ok ()                       (* [inf < _] is false *)
  | Some high =>
      if decide (high < default (dec 0) (odict_get GE bounds)) then
        match odict_get GE bounds with
        | Some low => Err (ImpossibleRequirements name low (Type_value s) high)
        | None => Err (KeyError ">=")
        end
      else Ok ()
  end.

Definition floor_reqs (adjusted : list Normal) : list Normal :=
  filter (λ v, op v = GE) adjusted.

Definition ceiling_reqs (adjusted : list Normal) : list Normal :=
  filter (λ v, op v = LE ∧ target v ≠ dec 0) adjusted.

Definition zero_reqs (adjusted : list Normal) : list Normal :=
  filter (λ v, op v = LE ∧ target v = dec 0) adjusted.

(** [floor(substat)] on the list that [adjusted_valid] holds. *)
Fixpoint floor (adjusted : list Normal) (s : Type_) : Decimal :=
  match adjusted with
  | [] => dec 0
  | req :: rest =>
      if bool_decide (substat req = s ∧ op req = GE) then target req
      else floor rest s
  end.

Definition tighten_min (bounds : gmap Type_ Bounds) (req : Normal)
    : gmap Type_ Bounds :=
  match bounds !! substat req with
  | Some b =>
      <[substat req := {| bmin := dmin (bmin b) (target req / dec 100);
                          bmax := bmax b |}]> bounds
  | None => bounds
  end.

Definition tighten_max (bounds : gmap Type_ Bounds) (req : Normal)
    : gmap Type_ Bounds :=
  match bounds !! substat req with
  | Some b =>
      <[substat req := {| bmin := bmin b;
                          bmax := dmin (bmax b) (target req / dec 100) |}]>
        bounds
  | None => bounds
  end.

Section realize.
(** The methods of validity.py that [realize] calls, and the type of
    the [cookie_sets] that it hands to them. *)
Context {CookieSets : Type}.
Variable convert : Valid → CookieSets → result (list Normal).
Variable fuzz : Normal → Normal.

(** [Requirements.realize], on an instance whose cached views have
    not been read yet; the result is the instance after the call. *)
Definition realize (self : t) (cookie_sets : CookieSets) : result t :=
  converted ← mapMr (λ valid, convert valid cookie_sets)
                    (adjusted_valid self);
  let collapsed := collapse (fuzz <$> concat converted) in
  let matched := foldl match_step [] collapsed in
  _ ← foldlM (check_bounds (name self)) () matched;
  let objective' :=
    match Special_bounds (objective self) with
    | Some bounds =>
        let bounds := foldl tighten_min bounds (floor_reqs collapsed) in
        let bounds := foldl tighten_max bounds (ceiling_reqs collapsed) in
        with_bounds (objective self) bounds
    | None => objective self
    end in
  Ok {| name := name self; valid := valid self; objective := objective';
        mods := mods self; resonance := resonance self;
        tart := tart self; biscuit := biscuit self;
        weight := weight self; _adjusted_valid := Some collapsed |}.
End realize.

Section from_yaml.
(** What [from_yaml] calls outside requirements.py: the [parse] class
    methods of validity.py, [Cookie.get(name).resonant] ([None] when
    [Cookie.get] finds nothing), and the initial [bounds] that the
    constructors of the two Special objectives set up. *)
Variable Normal_parse : string → option Normal.
Variable Range_parse : string → option Range.
Variable Equality_parse : string → option Equality.
Variable Relative_parse : string → option Relative.
Variable Cookie_get_resonant : string → option (list Resonance).
Variable EDMG_bounds Vitality_bounds :
  gmap Type_ Decimal → gmap Type_ Bounds.

Definition parse_valid_biscuit_line (biscuit_line : string)
    : option Equality := Equality_parse biscuit_line.

Definition parse_valid_tart_line (tart_line : string)
    : option Equality := Equality_parse tart_line.

(** The parsers in the order [(Normal, Range, Equality, Relative)]. *)
Definition parse_valid_requirement (requirement : string) : option Valid :=
  match Normal_parse requirement with
  | Some v => Some (VNormal v)
  | None =>
  match Range_parse requirement with
  | Some v => Some (VRange v)
  | None =>
  match Equality_parse requirement with
  | Some v => Some (VEquality v)
  | None =>
  match Relative_parse requirement with
  | Some v => Some (VRelative v)
  | None => None
  end end end end.

(** [mods[stat] += value] on the [defaultdict(Decimal)]. *)
Definition mods_add (mods : gmap Type_ Decimal) (stat : Type_)
    (value : Decimal) : gmap Type_ Decimal :=
  <[stat := mods_get mods stat + value]> mods.

(** [Type(v)] on a document value. *)
Definition Type_of_yval (v : YVal) : result Type_ :=
  match v with
  | YStr s => Type_of s
  | YNum d => Err (EnumValueErrorNum d)
  | YList _ => Err TypeError
  end.

(** The elements that iterating a document value yields. *)
Definition iterate (v : YVal) : result (list string) :=
  match v with
  | YList l => Ok l
  | YStr s => Ok ((λ c, String c EmptyString) <$> String.list_ascii_of_string s)
  | YNum _ => Err TypeError
  end.

(** [Decimal(requirement.get(key, "0"))]. *)
Definition override (requirement : list (string * YVal)) (key : string)
    : result Decimal :=
  match odict_get key requirement with
  | None => Ok (dec 0)
  | Some (YNum d) => Ok d
  | Some (YStr _) => Err InvalidOperation
  | Some (YList _) => Err TypeError
  end.

(** [for substat in cookie_mods: cookie_mods[substat] += ...]: only
    the stats already present as keys are visited. *)
Definition add_overrides (requirement : list (string * YVal))
    (cookie_mods : gmap Type_ Decimal) : result (gmap Type_ Decimal) :=
  updated ← mapMr (λ '(substat, total),
               delta ← override requirement (Type_value substat);
               Ok (substat, total + delta))
             (map_to_list cookie_mods);
  Ok (list_to_map updated).

(** [parse_objective_requirement]: the objective, and [cookie_mods] as
    the call leaves it.  The objective keeps the very dictionary it
    was handed, so its modifier vector is the returned one. *)
Definition parse_objective_requirement (requirement : list (string * YVal))
    (cookie_mods : gmap Type_ Decimal)
    : result (Objective * gmap Type_ Decimal) :=
  max ← match odict_get "max" requirement with
        | Some v => Ok v
        | None => Err (KeyError "max")
        end;
  objective ← Type_of_yval max;
  match objective with
  | COMBO =>
      raw ← match odict_get "substats" requirement with
            | Some v => iterate v
            | None => Err (KeyError "substats")
            end;
      types ← mapMr Type_of raw;
      Ok (Combo types cookie_mods, cookie_mods)
  | E_DMG =>
      cookie_mods ← add_overrides requirement cookie_mods;
      Ok (EDMG cookie_mods (EDMG_bounds cookie_mods), cookie_mods)
  | VITALITY =>
      cookie_mods ← add_overrides requirement cookie_mods;
      Ok (Vitality cookie_mods (Vitality_bounds cookie_mods), cookie_mods)
  | _ => Ok (Single objective, cookie_mods)
  end.

(** The body of the loop over [cookie["requirements"]]; the state is
    [(valid_reqs, objective, cookie_mods)]. *)
Definition requirement_step (cookie_name : string)
    (cookie_names : gset string)
    (st : list Valid * option Objective * gmap Type_ Decimal)
    (requirement : YItem)
    : result (list Valid * option Objective * gmap Type_ Decimal) :=
  let '(valid_reqs, objective, cookie_mods) := st in
  match requirement with
  | IStr s =>
      match parse_valid_requirement s with
      | None => Err (CouldNotParse cookie_name s)
      | Some (VRelative v) =>
          if decide (cookie v ∈ cookie_names)
          then Ok (valid_reqs ++ [VRelative v], objective, cookie_mods)
          else Err (RelativeTargetUnseen cookie_name)
      | Some valid => Ok (valid_reqs ++ [valid], objective, cookie_mods)
      end
  | IDict d =>
      match objective with
      | Some _ => Err (OnlyOneObjective cookie_name)
      | None =>
          match odict_get "max" d with
          | None => Err (ObjectiveNeedsMax cookie_name)
          | Some _ =>
              parsed ← parse_objective_requirement d cookie_mods;
              match parsed.1 with
              | Combo [] _ => Err (ComboNeedsSubstats cookie_name)
              | _ => Ok (valid_reqs, Some parsed.1, parsed.2)
              end
          end
      end
  | IOther => Ok st
  end.

Definition parse_resonances (cookie : CookieDoc) : result (list Resonance) :=
  resonances ← match doc_resonant cookie with
               | Some (r :: rs) => mapMr Resonance_of (r :: rs)
               | _ => Ok (default [] (Cookie_get_resonant (doc_name cookie)))
               end;
  Ok (resonances ++ [NORMAL]).

Definition parse_weight (requirements : Document) (cookie : CookieDoc)
    : option Z :=
  match odict_get (doc_name cookie) (default [] (leaderboard requirements)) with
  | Some w => if decide (w = 0%Z) then None else Some w
  | None => None
  end.

Definition parse_tart (cookie : CookieDoc) : result (option Equality) :=
  match doc_tart cookie with
  | Some (tart_line :: rest) =>
      match rest with
      | _ :: _ => Err (OnlyOneTart (doc_name cookie))
      | [] =>
          match tart_line with
          | IStr s =>
              match parse_valid_tart_line s with
              | None => Err (CouldNotParseTart (doc_name cookie) s)
              | Some tart_valid => Ok (Some tart_valid)
              end
          | _ => Ok None
          end
      end
  | _ => Ok None
  end.

Definition biscuit_step (cookie_name : string)
    (parsed_biscuit : list Equality) (biscuit_line : YItem)
    : result (list Equality) :=
  match biscuit_line with
  | IStr s =>
      match parse_valid_biscuit_line s with
      | None => Err (CouldNotParseBiscuit cookie_name s)
      | Some biscuit_valid => Ok (parsed_biscuit ++ [biscuit_valid])
      end
  | _ => Ok parsed_biscuit
  end.

(** The body of the loop over [requirements["cookies"]]; the state is
    [(cookies, cookie_names)]. *)
Definition compile_cookie (requirements : Document)
    (mods : gmap Type_ Decimal) (st : list t * gset string)
    (cookie : CookieDoc) : result (list t * gset string) :=
  let '(cookies, cookie_names) := st in
  let cookie_mods := mods in
  lines ← match doc_requirements cookie with
          | Some l => Ok l
          | None => Err (KeyError "requirements")
          end;
  parsed ← foldlM (requirement_step (doc_name cookie) cookie_names)
                  ([], None, cookie_mods) lines;
  let '(valid_reqs, objective, cookie_mods) := parsed in
  let cookie_names := {[doc_name cookie]} ∪ cookie_names in
  resonances ← parse_resonances cookie;
  let weight := parse_weight requirements cookie in
  parsed_tart ← parse_tart cookie;
  parsed_biscuit ← foldlM (biscuit_step (doc_name cookie)) []
                          (default [] (doc_biscuit cookie));
  r ← init (doc_name cookie) valid_reqs objective cookie_mods resonances
           parsed_tart (Some parsed_biscuit) weight;
  Ok (cookies ++ [r], cookie_names).

(** The modifier totals of the built-in table. *)
Definition default_mods : gmap Type_ Decimal :=
  foldl (λ mods '(stat, buffs),
           foldl (λ mods '(source, value), mods_add mods stat value)
                 mods buffs)
        ∅ DEFAULT_MODIFIERS.

(** The loop over the document's [modifiers]. *)
Definition declared_step (mods : gmap Type_ Decimal)
    (item : string * list Buff) : result (gmap Type_ Decimal) :=
  foldlM (λ mods buff, t ← Type_of item.1; Ok (mods_add mods t (value buff)))
         mods item.2.

Definition accumulate_mods (requirements : Document)
    : result (gmap Type_ Decimal) :=
  foldlM declared_step default_mods (default [] (modifiers requirements)).

(** [Requirements.from_yaml], from the loaded document. *)
Definition from_yaml (requirements : Document) : result (list t) :=
  mods ← accumulate_mods requirements;
  docs ← match cookies requirements with
         | Some l => Ok l
         | None => Err (KeyError "cookies")
         end;
  compiled ← foldlM (compile_cookie requirements mods) ([], ∅) docs;
  Ok compiled.1.
End from_yaml.

(** [d[k]] on a dictionary keyed by tier size. *)
Definition tier_get {V} (d : gmap nat V) (k : nat) : result V :=
  match d !! k with
  | Some v => Ok v
  | None => Err (KeyError (pretty k))
  end.

(** [{2: {}, 3: {}, 5: {}, 6: {}}]. *)
Definition best_set_bonuses_init : gmap nat (gmap Type_ Decimal) :=
  <[2%nat := ∅]> (<[3%nat := ∅]> (<[5%nat := ∅]> (<[6%nat := ∅]> ∅))).

(** The body of the loop over [INFO[s]["combos"]]. *)
Definition credit_tier (matching : nat) (s : Type_)
    (best_set_bonuses : gmap nat (gmap Type_ Decimal))
    (tier : nat * Decimal) : result (gmap nat (gmap Type_ Decimal)) :=
  let '(req, bonus) := tier in
  if bool_decide (req ≤ matching)%nat then
    inner ← tier_get best_set_bonuses req;
    Ok (<[req := <[s := dmax (default (dec 0) (inner !! s)) bonus]> inner]>
          best_set_bonuses)
  else Ok best_set_bonuses.

(** The body of the loop over [substats]. *)
Definition credit_substat (combo : list Topping)
    (best_set_bonuses : gmap nat (gmap Type_ Decimal)) (s : Type_)
    : result (gmap nat (gmap Type_ Decimal)) :=
  info ← INFO_get s;
  foldlM (credit_tier (matching_count combo s) s) best_set_bonuses
    (combos info).

(** The nested loop over the 2-piece and the 3-piece entries.  Only a
    maximum is taken, so the order of the items is not observable. *)
Definition best_2_3 (b2 b3 : gmap Type_ Decimal) : Decimal :=
  foldl (λ best '(s2, bonus2),
           foldl (λ best '(s3, bonus3),
                    if decide (s2 ≠ s3) then dmax best (bonus2 + bonus3)
                    else best)
                 best (map_to_list b3))
        (dec 0) (map_to_list b2).

(** [max(d.values(), default=Decimal(0))]. *)
Definition best_of (d : gmap Type_ Decimal) : Decimal :=
  dmax_list (dec 0) ((map_to_list d).*2).

(** [Requirements.best_possible_set_effect]; [self] is not read. *)
Definition best_possible_set_effect (combo : list Topping)
    (substats : list Type_) (non_match_count : Z) : result Decimal :=
  best_set_bonuses ← foldlM (credit_substat combo) best_set_bonuses_init substats;
  b2 ← tier_get best_set_bonuses 2%nat;
  b3 ← tier_get best_set_bonuses 3%nat;
  let best_2_3_combo := best_2_3 b2 b3 in
  let best_2 := best_of b2 in
  let best_3 := best_of b3 in
  b5 ← tier_get best_set_bonuses 5%nat;
  let best_5 := best_of b5 in
  b6 ← tier_get best_set_bonuses 6%nat;
  let best_6 := best_of b6 in
  Ok (dmax (dmax (dmax (dmax best_2_3_combo best_2) best_3) best_5) best_6).

End Requirements.

Module Examples.
Definition plain (addr : nat) (fl : Type_) : Topping :=
  {| topping_id := addr; resonance := None; flavor := fl;
     substats := [(fl, Finite (dec 3))] |}.

Definition five_atk : ToppingSet :=
  {| toppings := [plain 1 ATK; plain 2 ATK; plain 3 ATK; plain 4 ATK;
                  plain 5 ATK] |}.

Definition two_two_one : ToppingSet :=
  {| toppings := [plain 1 ATK; plain 2 ATK; plain 3 CRIT; plain 4 CRIT;
                  plain 5 HP] |}.

Definition three_dmgres : ToppingSet :=
  {| toppings := [plain 1 DMGRES; plain 2 DMGRES; plain 3 DMGRES;
                  plain 4 ATK; plain 5 HP] |}.
End Examples.

(* ===================================================================== *)
(** * An instance of the collaborators *)
(* ===================================================================== *)

(** Modelled from the spec: what requirements.py calls in validity.py,
    objectives.py and crk/cookies.py, none of which is among the sources.
    The properties below hold for every such collaborator; this instance,
    which follows the words of the spec, is the one they are tried on. *)
Module Collaborators.

(** A Minimum constraint is itself; a Range and an Equality give a floor
    and a ceiling; a Relative constraint is resolved against the sets of
    the other cookies, of which this instance knows none. *)
Definition convert (valid : Valid) (cookie_sets : unit)
    : result (list Normal) :=
  match valid with
  | VNormal v => Ok [v]
  | VRange v =>
      Ok [ {| substat := range_substat v; op := GE; target := low_target v |};
           {| substat := range_substat v; op := LE;
              target := high_target v |} ]
  | VEquality v =>
      Ok [ {| substat := equality_substat v; op := GE;
              target := equality_target v |};
           {| substat := equality_substat v; op := LE;
              target := equality_target v |} ]
  | VRelative v => Err (KeyError (cookie v))
  end.

(** Fuzz widens a constraint by one hundredth, toward looser. *)
Definition fuzz (v : Normal) : Normal :=
  {| substat := substat v; op := op v;
     target := match op v with
               | GE => target v - decq (1 # 100)
               | LE => target v + decq (1 # 100)
               end |}.

(** Parsers that know a few lines. *)
Definition Normal_parse (line : string) : option Normal :=
  if bool_decide (line = "ATK >= 50")
  then Some {| substat := ATK; op := GE; target := dec 50 |}
  else if bool_decide (line = "ATK <= 30")
  then Some {| substat := ATK; op := LE; target := dec 30 |}
  else None.

Definition Range_parse (line : string) : option Range :=
  if bool_decide (line = "10 <= CRIT% <= 20")
  then Some {| range_substat := CRIT; low_target := dec 10;
               high_target := dec 20 |}
  else None.

Definition Equality_parse (line : string) : option Equality :=
  if bool_decide (line = "HP = 5")
  then Some {| equality_substat := HP; equality_target := dec 5 |}
  else None.

Definition Relative_parse (line : string) : option Relative :=
  if bool_decide (line = "ATK SPD below Alpha")
  then Some {| relative_substat := ATKSPD; relative_op := LE;
               cookie := "Alpha" |}
  else None.

Definition Cookie_get_resonant (name : string) : option (list Resonance) :=
  if bool_decide (name = "Alpha") then Some [MOONKISSED] else None.

Definition EDMG_bounds (mods : gmap Type_ Decimal) : gmap Type_ Bounds :=
  {[ CRIT := {| bmin := dec 0; bmax := dec 1 |} ]}.

Definition Vitality_bounds (mods : gmap Type_ Decimal) : gmap Type_ Bounds :=
  {[ CRIT := {| bmin := dec 0; bmax := dec 1 |} ]}.

(** [Requirements.from_yaml] with these collaborators. *)
Definition from_yaml : Document → result (list Requirements.t) :=
  Requirements.from_yaml Normal_parse Range_parse Equality_parse
    Relative_parse Cookie_get_resonant EDMG_bounds Vitality_bounds.

(** A cookie with the given lines and nothing else. *)
Definition cookie_doc (name : string) (lines : list YItem) : CookieDoc :=
  {| doc_name := name; doc_requirements := Some lines;
     doc_resonant := None; doc_tart := None; doc_biscuit := None |}.

(** An instance of [Requirements] with the given lines and objective. *)
Definition requirements_of (valid : list Valid) (objective : Objective)
    (biscuit : option (list Equality)) : Requirements.t :=
  {| Requirements.name := "Alpha"; Requirements.valid := valid;
     Requirements.objective := objective; Requirements.mods := ∅;
     Requirements.resonance := [NORMAL]; Requirements.tart := None;
     Requirements.biscuit := biscuit; Requirements.weight := None;
     Requirements._adjusted_valid := None |}.

End Collaborators.

(** Documents that the properties of [from_yaml] are tried on. *)
Module Documents.

(** Alpha maximises E[DMG] with an override on ATK and one on DEF; Beta,
    which comes after it, has a Relative line on Alpha and a Combo
    objective. *)
Definition two_cookies : Document :=
  {| modifiers := Some [("ATK", [ {| source := "Guild"; value := dec 10 |} ])];
     leaderboard := Some [("Beta", 3%Z)];
     cookies :=
       Some [Collaborators.cookie_doc "Alpha"
               [IStr "ATK >= 50";
                IDict [("max", YStr "E[DMG]"); ("ATK", YNum (dec 20));
                       ("DEF", YNum (dec 7))]];
             Collaborators.cookie_doc "Beta"
               [IStr "ATK SPD below Alpha";
                IDict [("max", YStr "Combo");
                       ("substats", YList ["ATK"; "CRIT%"])]]] |}.

(** The same two cookies, Beta first. *)
Definition unseen_reference : Document :=
  {| modifiers := None; leaderboard := None;
     cookies :=
       Some [Collaborators.cookie_doc "Beta"
               [IStr "ATK SPD below Alpha";
                IDict [("max", YStr "Combo");
                       ("substats", YList ["ATK"; "CRIT%"])]];
             Collaborators.cookie_doc "Alpha"
               [IStr "ATK >= 50"; IDict [("max", YStr "E[DMG]")]]] |}.

End Documents.

(* ===================================================================== *)
(** * Decimals: order lemmas *)
(* ===================================================================== *)

(** Order reasoning on [Qc] goes through [Q], where [lra] applies. *)
Ltac qc_order :=
  repeat match goal with
         | H : ¬ (_ < _)%Qc |- _ => apply Qcnot_lt_le in H
         | H : ¬ (_ ≤ _)%Qc |- _ => apply Qcnot_le_lt in H
         end;
  try (apply Qc_is_canon);
  unfold Qcle, Qclt in *;
  repeat match goal with
         | H : @eq Qc _ _ |- _ => apply (f_equal this) in H; simpl in H
         end;
  simpl in *; try lra.

Lemma dmax_ge_l a b : a ≤ dmax a b.
Proof. unfold dmax. case_decide; qc_order. Qed.

Lemma dmax_ge_r a b : b ≤ dmax a b.
Proof. unfold dmax. case_decide; qc_order. Qed.

Lemma dmax_cases a b : dmax a b = a ∨ dmax a b = b.
Proof. unfold dmax. case_decide; auto. Qed.

Lemma dmin_cases a b : dmin a b = a ∨ dmin a b = b.
Proof. unfold dmin. case_decide; auto. Qed.

Lemma dmax_comm a b : dmax a b = dmax b a.
Proof. unfold dmax. repeat case_decide; qc_order. Qed.

Lemma dmax_assoc a b c : dmax (dmax a b) c = dmax a (dmax b c).
Proof. unfold dmax. repeat case_decide; qc_order. Qed.

Lemma dmin_comm a b : dmin a b = dmin b a.
Proof. unfold dmin. repeat case_decide; qc_order. Qed.

Lemma dmin_assoc a b c : dmin (dmin a b) c = dmin a (dmin b c).
Proof. unfold dmin. repeat case_decide; qc_order. Qed.

Lemma dmax_idemp a : dmax a a = a.
Proof. unfold dmax. case_decide; qc_order. Qed.

Lemma dmin_idemp a : dmin a a = a.
Proof. unfold dmin. case_decide; qc_order. Qed.

Lemma dmin_le_l a b : dmin a b ≤ a.
Proof. unfold dmin. case_decide; qc_order. Qed.

Lemma dmin_le_r a b : dmin a b ≤ b.
Proof. unfold dmin. case_decide; qc_order. Qed.

Lemma dec_plus_0_l (a : Decimal) : dec 0 + a = a.
Proof. exact (Qcplus_0_l a). Qed.

Lemma dec_plus_0_r (a : Decimal) : a + dec 0 = a.
Proof. exact (Qcplus_0_r a). Qed.

Lemma dmax_list_cases d xs : dmax_list d xs = d ∧ xs = [] ∨ dmax_list d xs ∈ xs.
Proof.
  destruct xs as [|x xs]; [by left|right]. simpl.
  assert (∀ a, foldl dmax a xs = a ∨ foldl dmax a xs ∈ xs) as Hfold.
  { induction xs as [|y ys IH]; intros a; simpl; [by left|].
    destruct (IH (dmax a y)) as [Heq | Hin].
    - rewrite Heq. destruct (dmax_cases a y) as [-> | ->]; [by left|].
      right. apply list_elem_of_here.
    - right. by apply list_elem_of_further. }
  destruct (Hfold x) as [-> | Hin].
  - apply list_elem_of_here.
  - by apply list_elem_of_further.
Qed.

(* ===================================================================== *)
(** * Loops that may raise *)
(* ===================================================================== *)

Lemma bind_Ok {A B} (m : result A) (f : A → result B) (b : B) :
  m ≫= f = Ok b ↔ ∃ a, m = Ok a ∧ f a = Ok b.
Proof.
  destruct m as [a | e]; simpl; split.
  - eauto.
  - by intros (a' & [= <-] & ?).
  - done.
  - by intros (a' & ? & ?).
Qed.

Lemma bind_Err {A B} (m : result A) (f : A → result B) (e : error) :
  m ≫= f = Err e ↔ m = Err e ∨ ∃ a, m = Ok a ∧ f a = Err e.
Proof.
  destruct m as [a | e']; simpl; split.
  - eauto.
  - intros [? | (a' & [= <-] & ?)]; done.
  - intros [= ->]. by left.
  - intros [[= ->] | (a' & ? & ?)]; [done | done].
Qed.

Lemma result_cases {A} (r : result A) : is_Ok r ∨ is_Err r.
Proof. destruct r; [left | right]; eexists; done. Qed.


Lemma foldlM_app {A B} (f : A → B → result A) a l1 l2 :
  foldlM f a (l1 ++ l2) = a' ← foldlM f a l1; foldlM f a' l2.
Proof.
  revert a. induction l1 as [|x l1 IH]; intros a; simpl; [done|].
  destruct (f a x) as [a' | e]; simpl; [apply IH | done].
Qed.

(** An invariant of the loop state that every iteration keeps holds when
    the loop finishes. *)
Lemma foldlM_invariant {A B} (P : A → Prop) (f : A → B → result A) l :
  (∀ a x a', x ∈ l → P a → f a x = Ok a' → P a') →
  ∀ a a', P a → foldlM f a l = Ok a' → P a'.
Proof.
  induction l as [|x l IH]; intros Hstep a a' Ha; simpl.
  - by intros [= <-].
  - intros (a1 & Hfx & Hrest)%bind_Ok.
    eapply IH; [| |exact Hrest].
    + intros ????; apply Hstep. by apply list_elem_of_further.
    + eapply Hstep; [apply list_elem_of_here|exact Ha|exact Hfx].
Qed.


(** An exception that leaves the loop was raised by one iteration. *)
Lemma foldlM_Err_inv {A B} (f : A → B → result A) l a e :
  foldlM f a l = Err e →
  ∃ pre x post a', l = pre ++ x :: post ∧ foldlM f a pre = Ok a'
                   ∧ f a' x = Err e.
Proof.
  revert a. induction l as [|y l IH]; intros a; simpl; [done|].
  intros [Hy | (a1 & Hy & Hrest)]%bind_Err.
  - by exists [], y, l, a.
  - destruct (IH _ Hrest) as (pre & x & post & a' & -> & Hpre & Hx).
    exists (y :: pre), x, post, a'. simpl. rewrite Hy. done.
Qed.


(* ===================================================================== *)
(** * Set-effect tiering *)
(* ===================================================================== *)

(** The scan returns the first tier whose requirement the count meets,
    every tier before it being out of reach, or [(0, 0)] when none is. *)
Lemma first_satisfied_scan tiers n :
  (∃ richer r b poorer,
      tiers = richer ++ (r, b) :: poorer
      ∧ Forall (λ tier, (n < tier.1)%nat) richer
      ∧ (r ≤ n)%nat
      ∧ first_satisfied tiers n = (r, b))
  ∨ (Forall (λ tier, (n < tier.1)%nat) tiers
     ∧ first_satisfied tiers n = (0%nat, dec 0)).
Proof.
  induction tiers as [|[r b] tiers IH]; simpl.
  - right. split; [constructor | done].
  - case_bool_decide as Hr.
    + left. exists [], r, b, tiers. repeat split; [constructor | done].
    + destruct IH as [(richer & r' & b' & poorer & -> & Hrich & Hr' & Hres)
                     | [Hall Hres]].
      * left. exists ((r, b) :: richer), r', b', poorer.
        repeat split; [|done|done]. constructor; [simpl; lia | done].
      * right. split; [|done]. constructor; [simpl; lia | done].
Qed.

(** Every schedule of [INFO] has the thresholds 2, 3, 5, 6. *)
Lemma INFO_schedule s info :
  INFO s = Some info → ∃ a b c d, combos info = schedule a b c d.
Proof. destruct s; intros [= <-]; simpl; eauto. Qed.

Lemma schedule_reverse_sorted a b c d :
  StronglySorted (λ x y, (y.1 < x.1)%nat) (reverse (schedule a b c d)).
Proof.
  unfold schedule. change (reverse ?l) with (rev_append l []). simpl.
  repeat (constructor; [|repeat constructor; simpl; lia]). constructor.
Qed.

(** C8. For a stat with a bonus schedule, [set_effect] scans the schedule
    from the richest tier down and returns the first tier whose item
    count is met by the members whose primary stat is the queried one;
    that tier is the highest met one.  When no tier is met it returns
    [(0, 0)].  With the schedule [(2,3),(3,7),(5,8),(6,10)] and exactly
    three such members the result is [(3, 7)]. *)
Theorem set_effect_highest_met_tier (self : ToppingSet) (X : Type_)
    (info : StatInfo) :
  INFO X = Some info →
  let n := matching_count (toppings self) X in
  ((∃ richer r b poorer,
       reverse (combos info) = richer ++ (r, b) :: poorer
       ∧ Forall (λ tier, (n < tier.1)%nat) richer
       ∧ (r ≤ n)%nat
       ∧ set_effect self X = Ok (r, b)
       ∧ ∀ r' b', (r', b') ∈ combos info → (r' ≤ n)%nat → (r' ≤ r)%nat)
   ∨ (Forall (λ tier, (n < tier.1)%nat) (combos info)
      ∧ set_effect self X = Ok (0%nat, dec 0)))
  ∧ (combos info = schedule 3 7 8 10 → n = 3%nat →
     set_effect self X = Ok (3%nat, dec 7)).
Proof.
  intros Hinfo n. unfold set_effect, INFO_get. rewrite Hinfo. simpl.
  fold n. split.
  - destruct (first_satisfied_scan (reverse (combos info)) n)
      as [(richer & r & b & poorer & Hsplit & Hrich & Hr & Hres) | [Hall Hres]].
    + left. exists richer, r, b, poorer. rewrite Hres.
      repeat split; try done.
      intros r' b' Hin Hr'.
      destruct (INFO_schedule _ _ Hinfo) as (a0 & b0 & c0 & d0 & Hsched).
      pose proof (schedule_reverse_sorted a0 b0 c0 d0) as Hsorted.
      rewrite <- Hsched, Hsplit in Hsorted.
      apply elem_of_reverse in Hin. rewrite Hsplit in Hin.
      apply elem_of_app in Hin as [Hin | Hin].
      * rewrite Forall_forall in Hrich. apply Hrich in Hin. simpl in Hin. lia.
      * apply elem_of_cons in Hin as [[= -> ->] | Hin]; [done|].
        apply StronglySorted_app_1_r in Hsorted.
        apply StronglySorted_inv in Hsorted as [_ Hlt].
        rewrite Forall_forall in Hlt. apply Hlt in Hin. simpl in Hin. lia.
    + right. rewrite Hres. split; [|done].
      rewrite Forall_forall in Hall |- *. intros tier Hin.
      apply Hall. by apply elem_of_reverse.
  - intros -> ->. reflexivity.
Qed.

Lemma set_effect_highest_met_tier_witness :
  set_effect Examples.three_dmgres DMGRES = Ok (3%nat, dec 7).
Proof.
  refine (proj2 (set_effect_highest_met_tier Examples.three_dmgres DMGRES
                   _ eq_refl) eq_refl eq_refl).
Defined.

(* ===================================================================== *)
(** * Topping equality *)
(* ===================================================================== *)

Lemma Topping_init_twice :
  let raw := [(Type_value ATK, Finite (dec 9)); (Type_value CRIT, Finite (dec 3))] in
  ∃ t1 t2,
    Topping_init 1 raw None = Ok t1
    ∧ Topping_init 2 raw None = Ok t2
    ∧ Topping_hash t1 ≠ Topping_hash t2
    ∧ Topping_eq t1 t2 = true.
Proof.
  eexists _, _. split; [reflexivity|]. split; [reflexivity|].
  split; [by vm_compute | reflexivity].
Qed.

(** C9 as stated fails: two toppings constructed separately, at
    different addresses, from the same substat list and the same
    resonance, compare equal. *)
Lemma Topping_eq_separate_instances :
  ¬ (∀ t1 t2 : Topping,
       topping_id t1 ≠ topping_id t2 →
       substats t1 = substats t2 → resonance t1 = resonance t2 →
       Topping_eq t1 t2 = false).
Proof.
  intros Hclaim.
  specialize (Hclaim (Examples.plain 1 ATK) (Examples.plain 2 ATK)).
  assert (Topping_eq (Examples.plain 1 ATK) (Examples.plain 2 ATK) = true)
    as Heq by reflexivity.
  rewrite Hclaim in Heq; [done | by vm_compute | done | done].
Qed.

(** C9, amended. [Topping.__eq__] is by content: two instances are equal
    exactly when their substat lists and their resonances are equal,
    whatever their allocation; only [__hash__] is by allocation. *)
Theorem Topping_eq_by_content (t1 t2 : Topping) :
  (Topping_eq t1 t2 = true
   ↔ substats t1 = substats t2 ∧ resonance t1 = resonance t2)
  ∧ (Topping_hash t1 = Topping_hash t2 ↔ topping_id t1 = topping_id t2).
Proof.
  split; [|done]. unfold Topping_eq.
  rewrite andb_true_iff, !bool_decide_eq_true. done.
Qed.

(* ===================================================================== *)
(** * Toppings: construction, validation and value *)
(* ===================================================================== *)







Lemma validate_subs_true subs :
  validate_subs subs = Ok true →
  Forall (λ sv, ∃ d info, sv.2 = Finite d ∧ INFO sv.1 = Some info
                          ∧ minsub info ≤ d ∧ d ≤ maxsub info) subs.
Proof.
  induction subs as [|[s v] subs IH]; simpl; [constructor|].
  unfold INFO_get. destruct (INFO s) as [info|] eqn:Hinfo; [simpl | done].
  destruct v as [d|]; simpl; [|done].
  destruct (bool_decide (minsub info ≤ d)) eqn:Hlo; [|done].
  destruct (bool_decide (d ≤ maxsub info)) eqn:Hhi; [simpl | done].
  apply bool_decide_eq_true in Hlo, Hhi.
  intros Hrest. constructor; [|by apply IH]. by exists d, info.
Qed.

(** What [validate] has checked when it returns [True]. *)
Lemma validate_true t :
  validate t = Ok true →
  ∃ p v rest info,
    substats t = (p, Finite v) :: rest ∧ INFO p = Some info
    ∧ v ≤ info_value info ∧ NoDup rest.*1
    ∧ Forall (λ sv, ∃ d info, sv.2 = Finite d ∧ INFO sv.1 = Some info
                              ∧ minsub info ≤ d ∧ d ≤ maxsub info) rest.
Proof.
  unfold validate. destruct (substats t) as [|[p v] rest]; [done|].
  unfold INFO_get. destruct (INFO p) as [info|] eqn:Hinfo; [simpl | done].
  destruct v as [v|]; simpl; [|done].
  case_bool_decide as Hv; [done|]. case_bool_decide as Hnodup; [|done].
  intros Hrest%validate_subs_true. exists p, v, rest, info.
  repeat split; try done. by apply Qcnot_lt_le.
Qed.



Lemma filter_unique_key (s : Type_) (l : list (Type_ * SubValue)) :
  NoDup l.*1 →
  filter (λ sv, sv.1 ∈ [s]) l = []
  ∨ ∃ v, filter (λ sv, sv.1 ∈ [s]) l = [(s, v)] ∧ (s, v) ∈ l.
Proof.
  induction l as [|[s' v'] l IH]; [by left|]. csimpl.
  intros [Hs' Hl]%NoDup_cons. rewrite filter_cons. simpl.
  destruct (decide (s' ∈ [s])) as [->%list_elem_of_singleton | Hne].
  - right. exists v'. split; [|apply list_elem_of_here]. f_equal.
    destruct (IH Hl) as [Hnil | (v & _ & Hin)]; [done|].
    destruct Hs'. apply list_elem_of_fmap. by exists (s, v).
  - destruct (IH Hl) as [Hnil | (v & Hfil & Hin)]; [by left|].
    right. exists v. split; [done | by apply list_elem_of_further].
Qed.

(** On a topping that [validate] accepts, the value for a stat other than
    the stat of the first substat is the [int] zero of an empty sum, or
    a single roll lying between that stat's [minsub] and [maxsub]. *)
Theorem validate_secondary_value_in_range (t : Topping) (s : Type_) :
  validate t = Ok true →
  head (substats t).*1 ≠ Some s →
  Topping_value t [s] = Ok IntZero
  ∨ ∃ d info, Topping_value t [s] = Ok (Num d) ∧ INFO s = Some info
              ∧ minsub info ≤ d ∧ d ≤ maxsub info.
Proof.
  intros (p & v & rest & info & Hsubs & _ & _ & Hnodup & Hrest)%validate_true.
  rewrite Hsubs. simpl. intros Hp. unfold Topping_value. rewrite Hsubs.
  rewrite filter_cons_False
    by (simpl; intros ->%list_elem_of_singleton; done).
  destruct (filter_unique_key s rest Hnodup) as [-> | (x & -> & Hin)];
    [by left | right].
  rewrite Forall_forall in Hrest.
  destruct (Hrest _ Hin) as (d & info' & Hd & Hinfo' & Hlo & Hhi).
  simpl in *. subst x. by exists d, info'.
Qed.

Lemma validate_secondary_value_in_range_witness :
  let t := {| topping_id := 1; resonance := None; flavor := ATK;
              substats := [(ATK, Finite (dec 9)); (CRIT, Finite (dec 2));
                           (HP, Finite (dec 3))] |} in
  Topping_value t [CRIT] = Ok IntZero
  ∨ ∃ d info, Topping_value t [CRIT] = Ok (Num d) ∧ INFO CRIT = Some info
              ∧ minsub info ≤ d ∧ d ≤ maxsub info.
Proof.
  apply validate_secondary_value_in_range; [vm_compute; reflexivity | done].
Defined.

(* ===================================================================== *)
(** * The bound on the set bonus *)
(* ===================================================================== *)

Import Requirements.

(** A tier of the schedule of [s] whose item count the committed
    toppings already meet, [s] being one of the candidate stats. *)
Definition credited (combo : list Topping) (substats : list Type_)
    (s : Type_) (req : nat) (bonus : Decimal) : Prop :=
  s ∈ substats
  ∧ ∃ info, INFO s = Some info ∧ (req, bonus) ∈ combos info
            ∧ (req ≤ matching_count combo s)%nat.

(** What the bound can be made of: nothing, one met tier, or a met
    2-piece tier and a met 3-piece tier of two different stats. *)
Definition from_met_tiers (combo : list Topping) (substats : list Type_)
    (v : Decimal) : Prop :=
  v = dec 0
  ∨ (∃ s req, credited combo substats s req v)
  ∨ (∃ s2 bonus2 s3 bonus3,
        s2 ≠ s3 ∧ credited combo substats s2 2 bonus2
        ∧ credited combo substats s3 3 bonus3 ∧ v = bonus2 + bonus3).

(** The invariant of [best_set_bonuses]: an entry is zero or a met tier. *)
Definition entries_met (combo : list Topping) (substats : list Type_)
    (best_set_bonuses : gmap nat (gmap Type_ Decimal)) : Prop :=
  ∀ req inner s v,
    best_set_bonuses !! req = Some inner → inner !! s = Some v →
    v = dec 0 ∨ credited combo substats s req v.

Lemma tier_get_Ok {V} (d : gmap nat V) k v :
  tier_get d k = Ok v ↔ d !! k = Some v.
Proof. unfold tier_get. destruct (d !! k); naive_solver. Qed.

Lemma foldl_invariant {A B} (P : A → Prop) (f : A → B → A) l :
  (∀ a x, x ∈ l → P a → P (f a x)) → ∀ a, P a → P (foldl f a l).
Proof.
  induction l as [|x l IH]; intros Hstep a Ha; simpl; [done|].
  apply IH.
  - intros ????. apply Hstep; [by apply list_elem_of_further | done].
  - apply Hstep; [apply list_elem_of_here | done].
Qed.

Lemma credit_tier_entries_met combo substats s info bsb tier bsb' :
  s ∈ substats → INFO s = Some info → tier ∈ combos info →
  entries_met combo substats bsb →
  credit_tier (matching_count combo s) s bsb tier = Ok bsb' →
  entries_met combo substats bsb'.
Proof.
  intros Hs Hinfo Htier Hinv. destruct tier as [req bonus].
  unfold credit_tier. case_bool_decide as Hmet; [|by intros [= <-]].
  intros (inner & Hinner%tier_get_Ok & [= <-])%bind_Ok.
  intros req' inner' s' v Hreq' Hs'.
  destruct (decide (req = req')) as [<- | Hne].
  - rewrite lookup_insert_eq in Hreq'. injection Hreq' as <-.
    destruct (decide (s = s')) as [<- | Hne].
    + rewrite lookup_insert_eq in Hs'. injection Hs' as <-.
      destruct (dmax_cases (default (dec 0) (inner !! s)) bonus) as [-> | ->].
      * destruct (inner !! s) as [v0|] eqn:Hv0; simpl; [|by left].
        by eapply Hinv.
      * right. split; [done|]. by exists info.
    + rewrite lookup_insert_ne in Hs' by done. by eapply Hinv.
  - rewrite lookup_insert_ne in Hreq' by done. by eapply Hinv.
Qed.

Lemma credit_substat_entries_met combo substats s bsb bsb' :
  s ∈ substats → entries_met combo substats bsb →
  credit_substat combo bsb s = Ok bsb' → entries_met combo substats bsb'.
Proof.
  intros Hs Hinv. unfold credit_substat, INFO_get.
  destruct (INFO s) as [info|] eqn:Hinfo; [simpl | done].
  apply foldlM_invariant; [|done].
  intros a tier a' Htier Ha. by eapply credit_tier_entries_met.
Qed.

Lemma best_of_cases d :
  best_of d = dec 0 ∨ ∃ s, d !! s = Some (best_of d).
Proof.
  unfold best_of.
  destruct (dmax_list_cases (dec 0) (map_to_list d).*2) as [[-> _] | Hin];
    [by left | right].
  apply list_elem_of_fmap in Hin as ([s v] & Hv & Hin).
  exists s. rewrite Hv. by apply elem_of_map_to_list.
Qed.

Lemma best_2_3_cases b2 b3 :
  best_2_3 b2 b3 = dec 0
  ∨ ∃ s2 bonus2 s3 bonus3,
      b2 !! s2 = Some bonus2 ∧ b3 !! s3 = Some bonus3 ∧ s2 ≠ s3
      ∧ best_2_3 b2 b3 = bonus2 + bonus3.
Proof.
  unfold best_2_3.
  set (P := λ best : Decimal,
         best = dec 0
         ∨ ∃ s2 bonus2 s3 bonus3,
             b2 !! s2 = Some bonus2 ∧ b3 !! s3 = Some bonus3 ∧ s2 ≠ s3
             ∧ best = bonus2 + bonus3).
  apply (foldl_invariant P); [|by left].
  intros best [s2 bonus2] Hin2%elem_of_map_to_list Hbest.
  apply (foldl_invariant P); [|done].
  intros best' [s3 bonus3] Hin3%elem_of_map_to_list Hbest'.
  case_decide as Hne; [|done].
  destruct (dmax_cases best' (bonus2 + bonus3)) as [-> | ->]; [done|].
  right. by exists s2, bonus2, s3, bonus3.
Qed.

Lemma from_met_tiers_entry combo substats bsb req inner s v :
  entries_met combo substats bsb → bsb !! req = Some inner →
  inner !! s = Some v → from_met_tiers combo substats v.
Proof.
  intros Hinv Hreq Hs. destruct (Hinv _ _ _ _ Hreq Hs) as [-> | Hc].
  - by left.
  - right; left. by exists s, req.
Qed.

Lemma from_met_tiers_dmax combo substats a b :
  from_met_tiers combo substats a → from_met_tiers combo substats b →
  from_met_tiers combo substats (dmax a b).
Proof. intros. by destruct (dmax_cases a b) as [-> | ->]. Qed.

(** Whenever the bound is returned it is made of met tiers only. *)
Lemma bound_from_met_tiers combo substats n v :
  best_possible_set_effect combo substats n = Ok v →
  from_met_tiers combo substats v.
Proof.
  unfold best_possible_set_effect.
  intros (bsb & Hbsb & Hrest)%bind_Ok.
  assert (entries_met combo substats bsb) as Hinv.
  { revert Hbsb. apply foldlM_invariant.
    - intros a s a' Hs Ha. by apply credit_substat_entries_met.
    - intros req inner s v0. unfold best_set_bonuses_init.
      rewrite !lookup_insert. repeat case_decide; try done;
        intros [= <-]; by rewrite lookup_empty. }
  apply bind_Ok in Hrest as (b2 & Hb2%tier_get_Ok & Hrest).
  apply bind_Ok in Hrest as (b3 & Hb3%tier_get_Ok & Hrest).
  apply bind_Ok in Hrest as (b5 & Hb5%tier_get_Ok & Hrest).
  apply bind_Ok in Hrest as (b6 & Hb6%tier_get_Ok & [= <-]).
  assert (∀ req inner, bsb !! req = Some inner →
                       from_met_tiers combo substats (best_of inner)) as Hbest.
  { intros req inner Hreq. destruct (best_of_cases inner) as [-> | [s Hs]].
    - by left.
    - by eapply from_met_tiers_entry. }
  repeat apply from_met_tiers_dmax; try by eapply Hbest.
  destruct (best_2_3_cases b2 b3)
    as [-> | (s2 & bonus2 & s3 & bonus3 & Hs2 & Hs3 & Hne & ->)]; [by left|].
  destruct (Hinv _ _ _ _ Hb2 Hs2) as [-> | Hc2];
    destruct (Hinv _ _ _ _ Hb3 Hs3) as [-> | Hc3].
  - left. apply dec_plus_0_l.
  - right; left. exists s3, 3%nat. by rewrite dec_plus_0_l.
  - right; left. exists s2, 2%nat. by rewrite dec_plus_0_r.
  - right; right. by exists s2, bonus2, s3, bonus3.
Qed.

(** The bound does not depend on [non_match_count], and whenever it is
    returned it is zero, the bonus of a tier that the committed toppings
    already meet, or the sum of a met 2-piece and a met 3-piece bonus of
    two different stats. *)
Theorem best_possible_set_effect_ignores_non_match_count
    (combo : list Topping) (substats : list Type_) (n1 n2 : Z) :
  best_possible_set_effect combo substats n1
  = best_possible_set_effect combo substats n2
  ∧ ∀ v, best_possible_set_effect combo substats n1 = Ok v →
         from_met_tiers combo substats v.
Proof. split; [reflexivity | apply bound_from_met_tiers]. Qed.

(* ===================================================================== *)
(** * Ordered dictionaries: lookup after store *)
(* ===================================================================== *)

Section odict_facts.
Context {K V : Type} `{EqDecision K}.
Implicit Types d : list (K * V).

Lemma odict_get_set_eq k v d : odict_get k (odict_set k v d) = Some v.
Proof.
  induction d as [|[k' v'] d IH]; simpl.
  - by rewrite decide_True.
  - destruct (decide (k = k')) as [-> | Hne]; simpl.
    + by rewrite decide_True.
    + by rewrite decide_False.
Qed.

Lemma odict_get_set_ne k k' v d :
  k ≠ k' → odict_get k' (odict_set k v d) = odict_get k' d.
Proof.
  intros Hne. induction d as [|[k0 v0] d IH]; simpl.
  - by rewrite decide_False.
  - destruct (decide (k = k0)) as [-> | Hne0]; simpl.
    + by rewrite !decide_False.
    + destruct (decide (k' = k0)); [done | apply IH].
Qed.

Lemma odict_get_None k d : odict_get k d = None ↔ k ∉ d.*1.
Proof.
  induction d as [|[k' v'] d IH]; simpl.
  - split; [intros _; apply not_elem_of_nil | done].
  - rewrite not_elem_of_cons. destruct (decide (k = k')) as [-> | Hne].
    + split; [done | by intros [? _]].
    + rewrite IH. tauto.
Qed.

Lemma odict_set_fresh k v d :
  odict_get k d = None → odict_set k v d = d ++ [(k, v)].
Proof.
  induction d as [|[k' v'] d IH]; simpl; [done|].
  destruct (decide (k = k')); [done|]. intros Hd. by rewrite IH.
Qed.

Lemma odict_set_keys k v d :
  (odict_set k v d).*1 = d.*1
  ∨ (odict_get k d = None ∧ (odict_set k v d).*1 = d.*1 ++ [k]).
Proof.
  induction d as [|[k' v'] d IH]; csimpl.
  - by right.
  - destruct (decide (k = k')) as [-> | Hne]; csimpl; [by left|].
    destruct IH as [-> | [Hnone ->]]; [by left | by right].
Qed.

Lemma odict_set_NoDup k v d : NoDup d.*1 → NoDup (odict_set k v d).*1.
Proof.
  intros Hd. destruct (odict_set_keys k v d) as [-> | [Hnone ->]]; [done|].
  apply NoDup_app. split; [done|]. split; [|apply NoDup_singleton].
  intros k' Hk' ->%list_elem_of_singleton. by apply odict_get_None in Hnone.
Qed.

Lemma odict_elem_of k v d :
  NoDup d.*1 → (k, v) ∈ d ↔ odict_get k d = Some v.
Proof.
  induction d as [|[k' v'] d IH]; simpl; intros Hd.
  - split; [by intros ?%elem_of_nil | done].
  - apply NoDup_cons in Hd as [Hk' Hd]. rewrite elem_of_cons.
    destruct (decide (k = k')) as [-> | Hne].
    + split; [|intros [= ->]; by left].
      intros [[= ->] | Hin]; [done|]. destruct Hk'.
      apply list_elem_of_fmap. by exists (k', v).
    + rewrite <- IH by done. split; [by intros [[= ? ?] | ?] | by right].
Qed.
End odict_facts.

(* ===================================================================== *)
(** * The duplicate-collapse step of [realize] *)
(* ===================================================================== *)

(** The tighter of two targets in the direction [o]. *)
Definition tighter (o : Op) (a b : Decimal) : Decimal :=
  match o with GE => dmax a b | LE => dmin a b end.

(** The constraint with key [k] and target [t]. *)
Definition Normal_of (k : Type_ * Op) (t : Decimal) : Normal :=
  {| substat := k.1; op := k.2; target := t |}.

(** The tightest target among the constraints of [l] whose key is [k]:
    their maximum for [">="], their minimum for ["<="]. *)
Fixpoint tightest (k : Type_ * Op) (l : list Normal) : option Decimal :=
  match l with
  | [] => None
  | v :: l' =>
      if decide (Normal_key v = k)
      then Some (match tightest k l' with
                 | None => target v
                 | Some t => tighter k.2 (target v) t
                 end)
      else tightest k l'
  end.

Lemma tighter_comm o a b : tighter o a b = tighter o b a.
Proof. destruct o; [apply dmax_comm | apply dmin_comm]. Qed.

Lemma tighter_assoc o a b c :
  tighter o (tighter o a b) c = tighter o a (tighter o b c).
Proof. destruct o; [apply dmax_assoc | apply dmin_assoc]. Qed.

Lemma tighter_cases o a b : tighter o a b = a ∨ tighter o a b = b.
Proof. destruct o; [apply dmax_cases | apply dmin_cases]. Qed.

Lemma Normal_of_key v : Normal_of (Normal_key v) (target v) = v.
Proof. by destruct v. Qed.

Lemma Normal_key_of k t : Normal_key (Normal_of k t) = k.
Proof. by destruct k. Qed.

Lemma Normal_eq v w : Normal_key v = Normal_key w → target v = target w → v = w.
Proof. destruct v, w; unfold Normal_key; simpl. by intros [= -> ->] ->. Qed.

Lemma extreme_tighter stored new :
  Normal_key stored = Normal_key new →
  extreme stored new
  = Normal_of (Normal_key new) (tighter (op new) (target stored) (target new)).
Proof.
  intros Hkey. apply Normal_eq.
  - rewrite Normal_key_of. unfold extreme.
    destruct (op new); case_decide; done.
  - unfold extreme, tighter, dmax, dmin, Normal_of; simpl.
    destruct (op new); case_decide; done.
Qed.

Lemma tightest_snoc k l x :
  tightest k (l ++ [x])
  = if decide (Normal_key x = k)
    then Some (match tightest k l with
               | None => target x
               | Some t => tighter k.2 t (target x)
               end)
    else tightest k l.
Proof.
  induction l as [|v l IH]; simpl; [done|]. rewrite IH.
  destruct (decide (Normal_key v = k)), (decide (Normal_key x = k)); try done.
  destruct (tightest k l); [|done]. by rewrite tighter_assoc.
Qed.

Lemma tightest_perm k l l' : l ≡ₚ l' → tightest k l = tightest k l'.
Proof.
  induction 1 as [|x l l' _ IH|x y l|l l' l'' _ IH1 _ IH2]; simpl.
  - done.
  - by rewrite IH.
  - destruct (decide (Normal_key x = k)), (decide (Normal_key y = k));
      try done.
    f_equal. destruct (tightest k l).
    + by rewrite <- !tighter_assoc, (tighter_comm _ (target y)).
    + apply tighter_comm.
  - congruence.
Qed.

Lemma tightest_elem k l t :
  tightest k l = Some t → ∃ w, w ∈ l ∧ Normal_key w = k ∧ target w = t.
Proof.
  revert t. induction l as [|v l IH]; simpl; intros t; [done|].
  destruct (decide (Normal_key v = k)) as [Hv | Hv].
  - intros [= <-]. destruct (tightest k l) as [t'|].
    + destruct (tighter_cases k.2 (target v) t') as [-> | ->].
      * exists v. split; [apply list_elem_of_here | done].
      * destruct (IH t' eq_refl) as (w & Hin & Hw).
        exists w. split; [by apply list_elem_of_further | done].
    + exists v. split; [apply list_elem_of_here | done].
  - intros (w & Hin & Hw)%IH.
    exists w. split; [by apply list_elem_of_further | done].
Qed.

(** Whether target [t] is at least as tight as [u] in direction [o]. *)
Definition at_least_as_tight (o : Op) (t u : Decimal) : Prop :=
  match o with GE => u ≤ t | LE => t ≤ u end.

Lemma at_least_as_tight_refl o t : at_least_as_tight o t t.
Proof. destruct o; simpl; apply Qcle_refl. Qed.

Lemma tighter_l o a b : at_least_as_tight o (tighter o a b) a.
Proof. destruct o; simpl; [apply dmax_ge_l | apply dmin_le_l]. Qed.

Lemma tighter_r o a b : at_least_as_tight o (tighter o a b) b.
Proof. destruct o; simpl; [apply dmax_ge_r | apply dmin_le_r]. Qed.

Lemma at_least_as_tight_trans o a b c :
  at_least_as_tight o a b → at_least_as_tight o b c → at_least_as_tight o a c.
Proof. destruct o; simpl; intros; eapply Qcle_trans; eauto. Qed.

Lemma tightest_is_Some l w : w ∈ l → is_Some (tightest (Normal_key w) l).
Proof.
  induction l as [|v l IH]; [by intros ?%elem_of_nil|]. simpl.
  intros [-> | Hin]%elem_of_cons.
  - by rewrite decide_True.
  - case_decide; [done | by apply IH].
Qed.

Lemma tightest_bound k l t w :
  tightest k l = Some t → w ∈ l → Normal_key w = k →
  at_least_as_tight k.2 t (target w).
Proof.
  revert t. induction l as [|v l IH]; simpl; intros t Ht Hin Hw;
    [by apply elem_of_nil in Hin|].
  apply elem_of_cons in Hin as [-> | Hin].
  - rewrite decide_True in Ht by done. injection Ht as <-.
    destruct (tightest k l); [apply tighter_l | apply at_least_as_tight_refl].
  - destruct (decide (Normal_key v = k)); [|by apply IH].
    injection Ht as <-. destruct (tightest k l) as [t'|] eqn:Ht'.
    + eapply at_least_as_tight_trans; [apply tighter_r | by apply IH].
    + destruct (tightest_is_Some l w Hin) as [t' Hsome].
      rewrite Hw in Hsome. congruence.
Qed.

(** The dictionary [collapsed] maps each key to the constraint with the
    tightest target of that key. *)
Lemma collapsed_get l k :
  odict_get k (foldl collapse_step [] l) = Normal_of k <$> tightest k l.
Proof.
  revert k. induction l as [|x l IH] using rev_ind; intros k; [done|].
  rewrite foldl_snoc, tightest_snoc. unfold collapse_step at 1.
  rewrite IH. destruct (tightest (Normal_key x) l) as [t|] eqn:Ht; simpl.
  - destruct (decide (Normal_key x = k)) as [<- | Hne].
    + rewrite odict_get_set_eq, Ht. simpl. f_equal.
      rewrite extreme_tighter by apply Normal_key_of. done.
    + by rewrite odict_get_set_ne.
  - destruct (decide (Normal_key x = k)) as [<- | Hne].
    + rewrite odict_get_set_eq, Ht. simpl. by rewrite Normal_of_key.
    + by rewrite odict_get_set_ne.
Qed.

Lemma collapsed_NoDup l : NoDup (foldl collapse_step [] l).*1.
Proof.
  apply (foldl_invariant (λ d, NoDup d.*1)); [|constructor].
  intros d x _ Hd. unfold collapse_step.
  destruct (odict_get _ d); by apply odict_set_NoDup.
Qed.

Lemma elem_of_collapse l v :
  v ∈ collapse l ↔ tightest (Normal_key v) l = Some (target v).
Proof.
  unfold collapse. rewrite list_elem_of_fmap. split.
  - intros ([k v'] & -> & Hin). simpl.
    apply odict_elem_of in Hin; [|apply collapsed_NoDup].
    rewrite collapsed_get in Hin.
    destruct (tightest k l) as [t|] eqn:Ht; [|done].
    injection Hin as <-. by rewrite Normal_key_of.
  - intros Ht. exists (Normal_key v, v). split; [done|].
    apply odict_elem_of; [apply collapsed_NoDup|].
    rewrite collapsed_get, Ht. simpl. by rewrite Normal_of_key.
Qed.

Lemma collapse_keys l :
  Normal_key <$> collapse l = (foldl collapse_step [] l).*1.
Proof.
  unfold collapse. rewrite <- list_fmap_compose.
  apply Forall_fmap_ext_1, Forall_forall. intros [k v] Hin. simpl.
  apply odict_elem_of in Hin; [|apply collapsed_NoDup].
  rewrite collapsed_get in Hin.
  destruct (tightest k l); [|done]. injection Hin as <-.
  apply Normal_key_of.
Qed.

Lemma collapse_keys_NoDup l : NoDup (Normal_key <$> collapse l).
Proof. rewrite collapse_keys. apply collapsed_NoDup. Qed.

(** A list without two constraints of the same key is left as it is. *)
Lemma collapse_fold_fresh l d :
  (∀ v, v ∈ l → Normal_key v ∉ d.*1) → NoDup (Normal_key <$> l) →
  foldl collapse_step d l = d ++ ((λ v, (Normal_key v, v)) <$> l).
Proof.
  revert d. induction l as [|x l IH]; intros d Hfresh Hnodup; simpl.
  - by rewrite app_nil_r.
  - apply NoDup_cons in Hnodup as [Hx Hnodup].
    assert (odict_get (Normal_key x) d = None) as Hnone.
    { apply odict_get_None, Hfresh, list_elem_of_here. }
    unfold collapse_step at 2. rewrite Hnone, odict_set_fresh by done.
    rewrite IH, <- app_assoc; [done| |done].
    intros v Hv. rewrite fmap_app, elem_of_app. intros [Hin | Hin].
    + by eapply Hfresh; [apply list_elem_of_further|].
    + apply list_elem_of_singleton in Hin. simpl in Hin. apply Hx.
      rewrite <- Hin. by apply list_elem_of_fmap_2.
Qed.

Lemma collapse_NoDup_id l : NoDup (Normal_key <$> l) → collapse l = l.
Proof.
  intros Hl. unfold collapse. rewrite collapse_fold_fresh; [|set_solver|done].
  simpl. rewrite <- list_fmap_compose. apply list_fmap_id.
Qed.

(** The duplicate-collapse step keeps one constraint for each stat and
    direction, and that constraint is the tightest of the list: it is
    one of the constraints of the list, and its target is the maximum of
    the [">="] targets, the minimum of the ["<="] targets, of that stat. *)
Theorem collapse_keeps_tightest (l : list Normal) :
  NoDup (Normal_key <$> collapse l)
  ∧ (∀ v, v ∈ collapse l → v ∈ l)
  ∧ (∀ w, w ∈ l →
       ∃ v, v ∈ collapse l ∧ Normal_key v = Normal_key w
            ∧ match op w with
              | GE => target w ≤ target v
              | LE => target v ≤ target w
              end).
Proof.
  split; [apply collapse_keys_NoDup|]. split.
  - intros v (w & Hin & Hkey & Htarget)%elem_of_collapse%tightest_elem.
    by rewrite <- (Normal_eq w v).
  - intros w Hw. destruct (tightest_is_Some l w Hw) as [t Ht].
    exists (Normal_of (Normal_key w) t). split; [|split].
    + apply elem_of_collapse. by rewrite Normal_key_of.
    + apply Normal_key_of.
    + pose proof (tightest_bound _ _ _ _ Ht Hw eq_refl) as Hb.
      simpl in Hb. unfold at_least_as_tight in Hb. by destruct (op w).
Qed.

(** Permuting the list of constraints permutes the collapsed list, and
    collapsing a collapsed list changes nothing. *)
Theorem collapse_order_independent_idempotent (l : list Normal) :
  (∀ l', l ≡ₚ l' → collapse l ≡ₚ collapse l')
  ∧ collapse (collapse l) = collapse l.
Proof.
  split.
  - intros l' Hperm. apply NoDup_Permutation.
    + eapply NoDup_fmap_1, collapse_keys_NoDup.
    + eapply NoDup_fmap_1, collapse_keys_NoDup.
    + intros v. rewrite !elem_of_collapse.
      by rewrite (tightest_perm _ _ _ Hperm).
  - apply collapse_NoDup_id, collapse_keys_NoDup.
Qed.

Lemma collapse_order_independent_witness :
  collapse [ {| substat := ATK; op := GE; target := dec 50 |};
             {| substat := ATK; op := GE; target := dec 60 |};
             {| substat := HP; op := LE; target := dec 30 |} ]
  ≡ₚ collapse [ {| substat := HP; op := LE; target := dec 30 |};
                {| substat := ATK; op := GE; target := dec 60 |};
                {| substat := ATK; op := GE; target := dec 50 |} ].
Proof.
  apply (proj1 (collapse_order_independent_idempotent _)).
  etrans; [apply Permutation_swap|]. etrans; [|apply Permutation_swap].
  apply Permutation_skip, Permutation_swap.
Defined.

(* ===================================================================== *)
(** * The bound against the bonus that a set earns *)
(* ===================================================================== *)

(** Linear arithmetic on [Qc], through the underlying [Q]. *)
Ltac qc_arith :=
  unfold dec, decq, Qcle, Qclt, inject_Z in *;
  cbn [this Qcplus Qcminus Qcopp Q2Qc] in *;
  repeat match goal with
         | H : context [Qred _] |- _ => rewrite !Qred_correct in H
         end;
  rewrite ?Qred_correct; lra.

Lemma dec_le a b : (a ≤ b)%Z → dec a ≤ dec b.
Proof.
  intros Hab. unfold dec, Qcle. cbn [this Q2Qc]. rewrite !Qred_correct.
  unfold Qle. simpl. lia.
Qed.

(** Every schedule of [INFO] has non-negative, non-decreasing bonuses. *)
Lemma INFO_schedule_ordered s info :
  INFO s = Some info →
  ∃ a b c d, combos info = schedule a b c d ∧ (0 ≤ a ≤ b ∧ b ≤ c ≤ d)%Z.
Proof.
  destruct s; intros [= <-]; simpl; do 4 eexists; (split; [reflexivity|lia]).
Qed.

Lemma first_satisfied_schedule a b c d n :
  first_satisfied (reverse (schedule a b c d)) n
  = if bool_decide (6 ≤ n)%nat then (6%nat, dec d)
    else if bool_decide (5 ≤ n)%nat then (5%nat, dec c)
    else if bool_decide (3 ≤ n)%nat then (3%nat, dec b)
    else if bool_decide (2 ≤ n)%nat then (2%nat, dec a)
    else (0%nat, dec 0).
Proof. reflexivity. Qed.

Lemma first_satisfied_schedule_mono a b c d n n' :
  (0 ≤ a ≤ b ∧ b ≤ c ≤ d)%Z → (n ≤ n')%nat →
  let e := first_satisfied (reverse (schedule a b c d)) n in
  let e' := first_satisfied (reverse (schedule a b c d)) n' in
  (e.1 ≤ e'.1)%nat ∧ e.2 ≤ e'.2 ∧ dec 0 ≤ e.2.
Proof.
  intros Hord Hn. cbv zeta. rewrite !first_satisfied_schedule.
  repeat case_bool_decide; simpl; (split; [lia|]);
    split; try apply dec_le; lia.
Qed.

(** A tier whose count is met is no better than the tier [set_effect]
    picks. *)
Lemma met_tier_le_first_satisfied a b c d req bonus n :
  (0 ≤ a ≤ b ∧ b ≤ c ≤ d)%Z →
  (req, bonus) ∈ schedule a b c d → (req ≤ n)%nat →
  bonus ≤ (first_satisfied (reverse (schedule a b c d)) n).2.
Proof.
  intros Hord Hin Hreq. rewrite first_satisfied_schedule. unfold schedule in Hin.
  repeat (apply elem_of_cons in Hin as [[= -> ->] | Hin]);
    [..|by apply elem_of_nil in Hin];
    repeat case_bool_decide; simpl; try lia; apply dec_le; lia.
Qed.

Lemma matching_count_submseteq (ts ts' : list Topping) s :
  ts ⊆+ ts' → (matching_count ts s ≤ matching_count ts' s)%nat.
Proof.
  unfold matching_count. induction 1 as [|x l1 l2 _ IH|x y l|x l1 l2 _ IH|l1 l2 l3 _ IH1 _ IH2].
  - done.
  - rewrite !filter_cons. case_decide; simpl; lia.
  - rewrite !filter_cons. repeat case_decide; simpl; lia.
  - rewrite filter_cons. case_decide; simpl; lia.
  - lia.
Qed.

Lemma set_effect_Ok self s e :
  set_effect self s = Ok e ↔
  ∃ info, INFO s = Some info
          ∧ e = first_satisfied (reverse (combos info))
                  (matching_count (toppings self) s).
Proof.
  unfold set_effect, INFO_get. destruct (INFO s) as [info|]; simpl.
  - split; [intros [= <-]; eauto | by intros (? & [= <-] & ->)].
  - split; [done | by intros (? & ? & _)].
Qed.

(** Adding toppings to a set never lowers the tier and the bonus that
    [set_effect] reports for a stat, and the bonus is never negative. *)
Theorem set_effect_monotone (self self' : ToppingSet) (s : Type_)
    (e : nat * Decimal) :
  toppings self ⊆+ toppings self' →
  set_effect self s = Ok e →
  ∃ e', set_effect self' s = Ok e'
        ∧ (e.1 ≤ e'.1)%nat ∧ e.2 ≤ e'.2 ∧ dec 0 ≤ e.2.
Proof.
  intros Hsub (info & Hinfo & ->)%set_effect_Ok.
  eexists. split; [apply set_effect_Ok; eauto|].
  destruct (INFO_schedule_ordered _ _ Hinfo) as (a & b & c & d & -> & Hord).
  apply first_satisfied_schedule_mono; [done|].
  by apply matching_count_submseteq.
Qed.

Lemma set_effect_monotone_witness :
  ∃ e', set_effect Examples.five_atk ATK = Ok e'
        ∧ (3 ≤ e'.1)%nat ∧ dec 8 ≤ e'.2 ∧ dec 0 ≤ dec 8.
Proof.
  refine (set_effect_monotone
            {| toppings := [Examples.plain 1 ATK; Examples.plain 2 ATK;
                            Examples.plain 3 ATK] |}
            Examples.five_atk ATK (3%nat, dec 8) _ eq_refl).
  simpl. do 3 apply submseteq_skip. apply submseteq_nil_l.
Defined.

Lemma set_effect_nonneg self s e : set_effect self s = Ok e → dec 0 ≤ e.2.
Proof.
  intros (info & Hinfo & ->)%set_effect_Ok.
  destruct (INFO_schedule_ordered _ _ Hinfo) as (a & b & c & d & -> & Hord).
  by destruct (first_satisfied_schedule_mono a b c d _ _ Hord
                 (le_n (matching_count (toppings self) s))) as (_ & _ & ?).
Qed.

(** The loop of [set_effect_total] from an accumulator [acc]. *)
Lemma set_effect_total_acc self stats acc v :
  foldlM (λ acc s, e ← set_effect self s; Ok (acc + e.2)) acc stats = Ok v →
  acc ≤ v
  ∧ (∀ s, s ∈ stats → ∃ e, set_effect self s = Ok e ∧ acc + e.2 ≤ v)
  ∧ (∀ s2 s3, s2 ∈ stats → s3 ∈ stats → s2 ≠ s3 →
       ∃ e2 e3, set_effect self s2 = Ok e2 ∧ set_effect self s3 = Ok e3
                ∧ acc + e2.2 + e3.2 ≤ v).
Proof.
  revert acc. induction stats as [|s stats IH]; intros acc; simpl.
  - intros [= <-]. split; [apply Qcle_refl|]. split.
    + by intros s ?%elem_of_nil.
    + by intros s2 s3 ?%elem_of_nil.
  - intros (acc' & (e & He & [= <-])%bind_Ok & Hrest)%bind_Ok.
    destruct (IH _ Hrest) as (Hacc & Hone & Htwo).
    pose proof (set_effect_nonneg _ _ _ He) as He0.
    split; [qc_arith|]. split.
    + intros s' [-> | Hin]%elem_of_cons.
      * exists e. split; [done | qc_arith].
      * destruct (Hone s' Hin) as (e' & He' & Hle).
        exists e'. split; [done | qc_arith].
    + intros s2 s3 [-> | Hin2]%elem_of_cons [-> | Hin3]%elem_of_cons Hne.
      * done.
      * destruct (Hone s3 Hin3) as (e3 & He3 & Hle).
        exists e, e3. repeat split; [done..| qc_arith].
      * destruct (Hone s2 Hin2) as (e2 & He2 & Hle).
        exists e2, e. repeat split; [done..| qc_arith].
      * destruct (Htwo s2 s3 Hin2 Hin3 Hne) as (e2 & e3 & He2 & He3 & Hle).
        exists e2, e3. repeat split; [done..| qc_arith].
Qed.

Lemma credited_le_set_effect combo substats completed s req bonus e :
  combo ⊆+ toppings completed →
  credited combo substats s req bonus → set_effect completed s = Ok e →
  bonus ≤ e.2.
Proof.
  intros Hsub (_ & info & Hinfo & Hin & Hreq) (info' & Hinfo' & ->)%set_effect_Ok.
  assert (info' = info) as -> by congruence.
  destruct (INFO_schedule_ordered _ _ Hinfo) as (a & b & c & d & Hsched & Hord).
  rewrite Hsched in *. eapply met_tier_le_first_satisfied; [done..|].
  etrans; [exact Hreq | by apply matching_count_submseteq].
Qed.

(** What [best_possible_set_effect] returns for the committed toppings is
    never more than the total set bonus of a set that contains them: the
    value is a floor on what any completion earns, not a ceiling. *)
Theorem best_possible_set_effect_le_achieved (combo : list Topping)
    (substats : list Type_) (non_match_count : Z) (completed : ToppingSet)
    (bound achieved : Decimal) :
  combo ⊆+ toppings completed →
  best_possible_set_effect combo substats non_match_count = Ok bound →
  set_effect_total completed substats = Ok achieved →
  bound ≤ achieved.
Proof.
  intros Hsub Hbound Htotal.
  apply set_effect_total_acc in Htotal as (H0 & Hone & Htwo).
  destruct (bound_from_met_tiers _ _ _ _ Hbound)
    as [-> | [(s & req & Hc) | (s2 & b2 & s3 & b3 & Hne & Hc2 & Hc3 & ->)]].
  - done.
  - destruct (Hone s (proj1 Hc)) as (e & He & Hle).
    pose proof (credited_le_set_effect _ _ _ _ _ _ _ Hsub Hc He). qc_arith.
  - destruct (Htwo s2 s3 (proj1 Hc2) (proj1 Hc3) Hne)
      as (e2 & e3 & He2 & He3 & Hle).
    pose proof (credited_le_set_effect _ _ _ _ _ _ _ Hsub Hc2 He2).
    pose proof (credited_le_set_effect _ _ _ _ _ _ _ Hsub Hc3 He3).
    qc_arith.
Qed.

Lemma best_possible_set_effect_le_achieved_witness : dec 4 ≤ dec 8.
Proof.
  apply (best_possible_set_effect_le_achieved
           [Examples.plain 1 ATK; Examples.plain 2 ATK] [ATK; CRIT] 3
           Examples.two_two_one).
  - simpl. do 2 apply submseteq_skip. apply submseteq_nil_l.
  - vm_compute. reflexivity.
  - vm_compute. reflexivity.
Defined.

(** The four tier dictionaries are never removed from [best_set_bonuses]. *)
Definition tiers_present (bsb : gmap nat (gmap Type_ Decimal)) : Prop :=
  ∀ k, k ∈ [2; 3; 5; 6]%nat → is_Some (bsb !! k).

Lemma credit_tier_present matching s bsb tier :
  tiers_present bsb → tier.1 ∈ [2; 3; 5; 6]%nat →
  ∃ bsb', credit_tier matching s bsb tier = Ok bsb' ∧ tiers_present bsb'.
Proof.
  intros Hbsb Htier. destruct tier as [req bonus]. unfold credit_tier.
  case_bool_decide; [|by eexists].
  destruct (Hbsb req Htier) as [inner Hinner].
  unfold tier_get. rewrite Hinner. simpl. eexists. split; [done|].
  intros k Hk. rewrite lookup_insert. case_decide; [done | by apply Hbsb].
Qed.

Lemma credit_substat_present combo bsb s :
  tiers_present bsb → is_Some (INFO s) →
  ∃ bsb', credit_substat combo bsb s = Ok bsb' ∧ tiers_present bsb'.
Proof.
  intros Hbsb [info Hinfo]. unfold credit_substat, INFO_get. rewrite Hinfo.
  simpl. destruct (INFO_schedule _ _ Hinfo) as (a & b & c & d & ->).
  unfold schedule.
  assert (∀ tiers bsb0,
            Forall (λ tier, tier.1 ∈ [2; 3; 5; 6]%nat) tiers →
            tiers_present bsb0 →
            ∃ bsb', foldlM (credit_tier (matching_count combo s) s) bsb0 tiers
                    = Ok bsb' ∧ tiers_present bsb') as Hloop.
  { induction tiers as [|tier tiers IH]; intros bsb0 Htiers Hbsb0; simpl.
    - by eexists.
    - apply Forall_cons in Htiers as [Htier Htiers].
      destruct (credit_tier_present (matching_count combo s) s bsb0 tier)
        as (bsb1 & -> & Hbsb1); [done..|]. simpl. by apply IH. }
  apply Hloop; [|done].
  repeat (constructor; [simpl; set_solver|]). constructor.
Qed.

Lemma credit_substat_missing combo bsb s :
  INFO s = None → credit_substat combo bsb s = Err (KeyError (Type_name s)).
Proof. intros Hs. unfold credit_substat, INFO_get. by rewrite Hs. Qed.

(** The bound is returned exactly when every candidate stat has a bonus
    schedule in [INFO]; otherwise the call raises the [KeyError] of the
    first candidate that has none. *)
Theorem best_possible_set_effect_defined (combo : list Topping)
    (substats : list Type_) (non_match_count : Z) :
  (Forall (λ s, is_Some (INFO s)) substats
   ↔ is_Ok (best_possible_set_effect combo substats non_match_count))
  ∧ (∀ known s rest,
       substats = known ++ s :: rest →
       Forall (λ s, is_Some (INFO s)) known → INFO s = None →
       best_possible_set_effect combo substats non_match_count
       = Err (KeyError (Type_name s))).
Proof.
  assert (∀ l bsb, tiers_present bsb → Forall (λ s, is_Some (INFO s)) l →
            ∃ bsb', foldlM (credit_substat combo) bsb l = Ok bsb'
                    ∧ tiers_present bsb') as Hloop.
  { induction l as [|s l IH]; intros bsb Hbsb Hl; simpl; [by eexists|].
    apply Forall_cons in Hl as [Hs Hl].
    destruct (credit_substat_present combo bsb s) as (bsb1 & -> & Hbsb1);
      [done..|]. simpl. by apply IH. }
  assert (tiers_present best_set_bonuses_init) as Hinit.
  { intros k Hk. unfold best_set_bonuses_init.
    repeat (apply elem_of_cons in Hk as [-> | Hk]; [by eexists|]).
    by apply elem_of_nil in Hk. }
  assert (∀ known s rest,
            substats = known ++ s :: rest →
            Forall (λ s, is_Some (INFO s)) known → INFO s = None →
            best_possible_set_effect combo substats non_match_count
            = Err (KeyError (Type_name s))) as Hraise.
  { intros known s rest -> Hknown Hs. unfold best_possible_set_effect.
    rewrite foldlM_app.
    destruct (Hloop known _ Hinit Hknown) as (bsb & -> & _). simpl.
    by rewrite credit_substat_missing. }
  split; [split|exact Hraise].
  - intros Hall. unfold best_possible_set_effect.
    destruct (Hloop substats _ Hinit Hall) as (bsb & -> & Hbsb). simpl.
    unfold tier_get.
    destruct (Hbsb 2%nat) as [b2 ->]; [set_solver|].
    destruct (Hbsb 3%nat) as [b3 ->]; [set_solver|].
    destruct (Hbsb 5%nat) as [b5 ->]; [set_solver|].
    destruct (Hbsb 6%nat) as [b6 ->]; [set_solver|].
    simpl. by eexists.
  - intros [v Hv]. apply Forall_forall. intros s Hs.
    destruct (INFO s) as [info|] eqn:Hinfo; [done|].
    assert (∃ known s' rest, substats = known ++ s' :: rest
              ∧ Forall (λ s, is_Some (INFO s)) known ∧ INFO s' = None)
      as (known & s' & rest & Hsplit & Hknown & Hs').
    { clear Hv Hraise. induction substats as [|s0 l IH];
        [by apply elem_of_nil in Hs|].
      destruct (INFO s0) as [info0|] eqn:Hinfo0.
      - apply elem_of_cons in Hs as [-> | Hs]; [congruence|].
        destruct (IH Hs) as (known & s' & rest & -> & Hknown & Hs').
        exists (s0 :: known), s', rest. split; [done|]. split; [|done].
        constructor; [by rewrite Hinfo0 | done].
      - exists [], s0, l. split; [done|]. split; [constructor | done]. }
    rewrite (Hraise _ _ _ Hsplit Hknown Hs') in Hv. done.
Qed.

Lemma best_possible_set_effect_defined_witness :
  best_possible_set_effect [] [ATK; CRIT_DMG; HP] 5
  = Err (KeyError (Type_name CRIT_DMG)).
Proof.
  apply (proj2 (best_possible_set_effect_defined [] [ATK; CRIT_DMG; HP] 5)
           [ATK] CRIT_DMG [HP] eq_refl); [|done].
  constructor; [by eexists | constructor].
Defined.

(* ===================================================================== *)
(** * [realize]: what a successful call guarantees *)
(* ===================================================================== *)

Lemma foldlM_unit_all {B} (f : unit → B → result unit) l :
  foldlM f () l = Ok () → ∀ x, x ∈ l → f () x = Ok ().
Proof.
  induction l as [|y l IH]; simpl; intros Hl x Hx;
    [by apply elem_of_nil in Hx|].
  apply bind_Ok in Hl as ([] & Hy & Hl).
  apply elem_of_cons in Hx as [-> | Hx]; [done | by apply IH].
Qed.

(** The entry of [matched] for a stat and a direction is the target of
    the constraint with that key. *)
Lemma matched_get l s o :
  odict_get s (foldl match_step [] l) ≫= odict_get o
  = foldl (λ acc v, if decide (Normal_key v = (s, o)) then Some (target v)
                    else acc) None l.
Proof.
  induction l as [|x l IH] using rev_ind; [done|].
  rewrite !foldl_snoc, <- IH. unfold match_step at 1.
  destruct (decide (substat x = s)) as [<- | Hs].
  - rewrite odict_get_set_eq. simpl.
    destruct (decide (op x = o)) as [<- | Ho].
    + rewrite odict_get_set_eq. rewrite decide_True; [done | by destruct x].
    + rewrite odict_get_set_ne by done.
      rewrite decide_False by (unfold Normal_key; congruence).
      by destruct (odict_get (substat x) (foldl match_step [] l)).
  - rewrite odict_get_set_ne by done.
    rewrite decide_False by (unfold Normal_key; congruence). done.
Qed.

Lemma matched_get_elem l v :
  NoDup (Normal_key <$> l) → v ∈ l →
  odict_get (substat v) (foldl match_step [] l) ≫= odict_get (op v)
  = Some (target v).
Proof.
  rewrite matched_get.
  induction l as [|x l IH] using rev_ind; [by intros _ ?%elem_of_nil|].
  rewrite fmap_app, NoDup_app. intros (Hl & Hfresh & _) Hin.
  rewrite foldl_snoc. apply elem_of_app in Hin as [Hin | ->%list_elem_of_singleton].
  - rewrite decide_False; [by apply IH|]. intros Hkey.
    apply (Hfresh (Normal_key v)); [by apply list_elem_of_fmap_2|].
    simpl. apply list_elem_of_singleton. by destruct v.
  - rewrite decide_True; [done | by destruct x].
Qed.

Lemma matched_get_None l s o :
  (∀ t, Normal_of (s, o) t ∉ l) →
  odict_get s (foldl match_step [] l) ≫= odict_get o = None.
Proof.
  rewrite matched_get.
  induction l as [|x l IH] using rev_ind; [done|]. intros Hnone.
  rewrite foldl_snoc. rewrite decide_False.
  - apply IH. intros t Ht. apply (Hnone t), elem_of_app. by left.
  - intros Hkey. apply (Hnone (target x)), elem_of_app. right.
    apply list_elem_of_singleton. by rewrite <- Hkey, Normal_of_key.
Qed.

Lemma matched_NoDup l : NoDup (foldl match_step [] l).*1.
Proof.
  apply (foldl_invariant (λ d, NoDup d.*1)); [|constructor].
  intros d x _ Hd. by apply odict_set_NoDup.
Qed.

(** What the contradiction check lets through. *)
Lemma check_bounds_Ok name s bounds :
  check_bounds name () (s, bounds) = Ok () →
  ∀ high, odict_get LE bounds = Some high →
          default (dec 0) (odict_get GE bounds) ≤ high.
Proof.
  unfold check_bounds. intros Hcheck high Hhigh. rewrite Hhigh in Hcheck.
  case_decide as Hlt; [by destruct (odict_get GE bounds)|].
  by apply Qcnot_lt_le.
Qed.

Section realize_facts.
Context {CookieSets : Type}.
Variable convert : Valid → CookieSets → result (list Normal).
Variable fuzz : Normal → Normal.

Lemma realize_Ok self cookie_sets r' :
  realize convert fuzz self cookie_sets = Ok r' →
  ∃ converted,
    mapMr (λ valid, convert valid cookie_sets) (adjusted_valid self)
    = Ok converted
    ∧ let collapsed := collapse (fuzz <$> concat converted) in
      foldlM (check_bounds (name self)) () (foldl match_step [] collapsed)
      = Ok ()
      ∧ _adjusted_valid r' = Some collapsed
      ∧ name r' = name self ∧ valid r' = valid self ∧ mods r' = mods self
      ∧ resonance r' = resonance self ∧ tart r' = tart self
      ∧ biscuit r' = biscuit self ∧ weight r' = weight self.
Proof.
  unfold realize. intros (converted & Hconv & Hrest)%bind_Ok.
  apply bind_Ok in Hrest as ([] & Hcheck & [= <-]).
  exists converted. split; [done|]. simpl. by repeat split.
Qed.

(** A successful [realize] leaves constraints that are not contradictory:
    at most one per stat and direction, a floor of a stat never above
    its ceiling, and a ceiling without a floor never negative. *)
Theorem realize_feasible (self : t) (cookie_sets : CookieSets) (r' : t) :
  realize convert fuzz self cookie_sets = Ok r' →
  ∃ adjusted,
    _adjusted_valid r' = Some adjusted
    ∧ NoDup (Normal_key <$> adjusted)
    ∧ (∀ s low high,
         Normal_of (s, GE) low ∈ adjusted →
         Normal_of (s, LE) high ∈ adjusted → low ≤ high)
    ∧ (∀ s high,
         Normal_of (s, LE) high ∈ adjusted →
         (∀ low, Normal_of (s, GE) low ∉ adjusted) → dec 0 ≤ high).
Proof.
  intros (converted & _ & Hcheck & Hadj & _)%realize_Ok.
  set (adjusted := collapse (fuzz <$> concat converted)) in *.
  exists adjusted. split; [done|].
  pose proof (collapse_keys_NoDup (fuzz <$> concat converted)) as Hnodup.
  fold adjusted in Hnodup. split; [done|].
  assert (∀ s high, Normal_of (s, LE) high ∈ adjusted →
            ∃ bounds, odict_get s (foldl match_step [] adjusted) = Some bounds
                      ∧ odict_get LE bounds = Some high
                      ∧ default (dec 0) (odict_get GE bounds) ≤ high)
    as Hceiling.
  { intros s high Hin.
    pose proof (matched_get_elem _ _ Hnodup Hin) as Hget. simpl in Hget.
    destruct (odict_get s (foldl match_step [] adjusted)) as [bounds|] eqn:Hs;
      [simpl in Hget | done].
    exists bounds. split; [done|]. split; [done|].
    eapply check_bounds_Ok; [|done].
    eapply (foldlM_unit_all _ _ Hcheck (s, bounds)).
    apply odict_elem_of; [apply matched_NoDup | done]. }
  split.
  - intros s low high Hlow Hhigh.
    destruct (Hceiling s high Hhigh) as (bounds & Hs & _ & Hle).
    pose proof (matched_get_elem _ _ Hnodup Hlow) as Hget. simpl in Hget.
    rewrite Hs in Hget. simpl in Hget. by rewrite Hget in Hle.
  - intros s high Hhigh Hnone.
    destruct (Hceiling s high Hhigh) as (bounds & Hs & _ & Hle).
    pose proof (matched_get_None adjusted s GE Hnone) as Hget.
    rewrite Hs in Hget. simpl in Hget. by rewrite Hget in Hle.
Qed.

(** Whether every entry of [b'] is an entry of [b] with its [min] and its
    [max] lowered or kept, and the two have the same stats. *)
Definition bounds_lowered (b' b : gmap Type_ Bounds) : Prop :=
  ∀ s, match b !! s, b' !! s with
       | Some x, Some x' => bmin x' ≤ bmin x ∧ bmax x' ≤ bmax x
       | None, None => True
       | _, _ => False
       end.

Lemma bounds_lowered_refl b : bounds_lowered b b.
Proof. intros s. destruct (b !! s); [split; apply Qcle_refl | done]. Qed.

Lemma bounds_lowered_trans b1 b2 b3 :
  bounds_lowered b1 b2 → bounds_lowered b2 b3 → bounds_lowered b1 b3.
Proof.
  intros H12 H23 s. specialize (H12 s). specialize (H23 s).
  destruct (b3 !! s), (b2 !! s), (b1 !! s); try done.
  destruct H12, H23. split; eapply Qcle_trans; eauto.
Qed.

Lemma tighten_min_lowered b req : bounds_lowered (tighten_min b req) b.
Proof.
  unfold tighten_min. destruct (b !! substat req) as [x|] eqn:Hx;
    [|apply bounds_lowered_refl].
  intros s. destruct (decide (substat req = s)) as [<- | Hne].
  - rewrite Hx, lookup_insert_eq. simpl.
    split; [apply dmin_le_l | apply Qcle_refl].
  - rewrite lookup_insert_ne by done. apply bounds_lowered_refl.
Qed.

Lemma tighten_max_lowered b req : bounds_lowered (tighten_max b req) b.
Proof.
  unfold tighten_max. destruct (b !! substat req) as [x|] eqn:Hx;
    [|apply bounds_lowered_refl].
  intros s. destruct (decide (substat req = s)) as [<- | Hne].
  - rewrite Hx, lookup_insert_eq. simpl.
    split; [apply Qcle_refl | apply dmin_le_l].
  - rewrite lookup_insert_ne by done. apply bounds_lowered_refl.
Qed.

(** [realize] only ever lowers the [min] and [max] entries of a Special
    objective's [bounds], never adds or removes a stat there, and leaves
    any other objective as it is. *)
Theorem realize_bounds_lowered (self : t) (cookie_sets : CookieSets)
    (r' : t) :
  realize convert fuzz self cookie_sets = Ok r' →
  match Special_bounds (objective self) with
  | Some b =>
      ∃ b', objective r' = with_bounds (objective self) b'
            ∧ Special_bounds (objective r') = Some b'
            ∧ bounds_lowered b' b
  | None => objective r' = objective self
  end.
Proof.
  unfold realize. intros (converted & Hconv & Hrest)%bind_Ok.
  apply bind_Ok in Hrest as ([] & Hcheck & [= <-]). simpl.
  destruct (Special_bounds (objective self)) as [b|] eqn:Hb; [|done].
  eexists. split; [done|]. split.
  - by destruct (objective self).
  - eapply bounds_lowered_trans.
    + apply (foldl_invariant (λ b', bounds_lowered b' _));
        [|apply bounds_lowered_refl].
      intros b' req _ Hb'. eapply bounds_lowered_trans; [|exact Hb'].
      apply tighten_max_lowered.
    + apply (foldl_invariant (λ b', bounds_lowered b' b));
        [|apply bounds_lowered_refl].
      intros b' req _ Hb'. eapply bounds_lowered_trans; [|exact Hb'].
      apply tighten_min_lowered.
Qed.
End realize_facts.

(** The three views split the adjusted constraints: each constraint is
    in exactly one of [floor_reqs], [ceiling_reqs] and [zero_reqs]. *)
Theorem reqs_partition (adjusted : list Normal) :
  floor_reqs adjusted ++ ceiling_reqs adjusted ++ zero_reqs adjusted
  ≡ₚ adjusted
  ∧ ∀ v, v ∈ adjusted →
      (v ∈ floor_reqs adjusted ↔ op v = GE)
      ∧ (v ∈ ceiling_reqs adjusted ↔ op v = LE ∧ target v ≠ dec 0)
      ∧ (v ∈ zero_reqs adjusted ↔ op v = LE ∧ target v = dec 0).
Proof.
  split.
  - unfold floor_reqs, ceiling_reqs, zero_reqs.
    induction adjusted as [|v l IH]; [done|].
    rewrite !filter_cons. destruct v as [s [] tgt]; simpl.
    + by f_equiv.
    + destruct (decide (tgt = dec 0)) as [-> | Hne].
      * rewrite decide_False by (by intros [_ ?]). rewrite decide_True by done.
        rewrite (assoc (++)). rewrite <- Permutation_middle.
        rewrite <- (assoc (++)). by f_equiv.
      * rewrite decide_True by done. rewrite decide_False by (by intros [_ ?]).
        simpl. rewrite <- Permutation_middle. by f_equiv.
  - intros v Hv. unfold floor_reqs, ceiling_reqs, zero_reqs.
    rewrite !list_elem_of_filter. tauto.
Qed.

(** After the collapse step, [floor] of a stat is the largest of its
    [">="] targets, and zero when it has none. *)
Theorem floor_collapse (l : list Normal) (s : Type_) :
  floor (collapse l) s = default (dec 0) (tightest (s, GE) l).
Proof.
  assert (∀ adjusted, NoDup (Normal_key <$> adjusted) →
            (∀ t, Normal_of (s, GE) t ∈ adjusted → floor adjusted s = t)
            ∧ ((∀ t, Normal_of (s, GE) t ∉ adjusted) →
               floor adjusted s = dec 0)) as Hfloor.
  { induction adjusted as [|v adj IH]; csimpl; intros Hnodup.
    - split; [by intros t ?%elem_of_nil | done].
    - apply NoDup_cons in Hnodup as [Hv Hnodup].
      destruct (IH Hnodup) as [IHin IHout]. case_bool_decide as Hkey.
      + split.
        * intros t [Heq | Hin]%elem_of_cons; [by rewrite <- Heq|].
          destruct Hv. apply list_elem_of_fmap.
          exists (Normal_of (s, GE) t). split; [|done].
          destruct v, Hkey; simpl in *. by subst.
        * intros Hnone. destruct (Hnone (target v)).
          apply elem_of_cons. left. destruct v, Hkey; simpl in *. by subst.
      + split.
        * intros t [Heq | Hin]%elem_of_cons; [|by apply IHin].
          destruct Hkey. by rewrite <- Heq.
        * intros Hnone. apply IHout. intros t Ht.
          apply (Hnone t). by apply list_elem_of_further. }
  destruct (Hfloor _ (collapse_keys_NoDup l)) as [Hin Hout].
  destruct (tightest (s, GE) l) as [t|] eqn:Ht; simpl.
  - apply Hin, elem_of_collapse. by rewrite Normal_key_of.
  - apply Hout. intros t Hin'%elem_of_collapse.
    rewrite Normal_key_of in Hin'. congruence.
Qed.

Lemma realize_feasible_witness :
  match realize Collaborators.convert Collaborators.fuzz
          (Collaborators.requirements_of
             [VRange {| range_substat := CRIT; low_target := dec 10;
                        high_target := dec 20 |};
              VNormal {| substat := ATK; op := GE; target := dec 50 |}]
             (Single ATK) None) () with
  | Ok r' =>
      ∃ adjusted,
        _adjusted_valid r' = Some adjusted
        ∧ NoDup (Normal_key <$> adjusted)
        ∧ (∀ s low high,
             Normal_of (s, GE) low ∈ adjusted →
             Normal_of (s, LE) high ∈ adjusted → low ≤ high)
        ∧ (∀ s high,
             Normal_of (s, LE) high ∈ adjusted →
             (∀ low, Normal_of (s, GE) low ∉ adjusted) → dec 0 ≤ high)
  | Err _ => False
  end.
Proof.
  destruct (realize _ _ _ _) as [r'|e] eqn:Hrealize.
  - exact (realize_feasible _ _ _ _ _ Hrealize).
  - vm_compute in Hrealize. discriminate.
Defined.

Lemma realize_bounds_lowered_witness :
  match realize Collaborators.convert Collaborators.fuzz
          (Collaborators.requirements_of
             [VRange {| range_substat := CRIT; low_target := dec 10;
                        high_target := dec 20 |}]
             (EDMG ∅ (Collaborators.EDMG_bounds ∅)) None) () with
  | Ok r' =>
      ∃ b', objective r'
            = with_bounds (EDMG ∅ (Collaborators.EDMG_bounds ∅)) b'
            ∧ Special_bounds (objective r') = Some b'
            ∧ bounds_lowered b' (Collaborators.EDMG_bounds ∅)
  | Err _ => False
  end.
Proof.
  destruct (realize _ _ _ _) as [r'|e] eqn:Hrealize.
  - exact (realize_bounds_lowered _ _ _ _ _ Hrealize).
  - vm_compute in Hrealize. discriminate.
Defined.

(* ===================================================================== *)
(** * Biscuit lines and the adjusted constraints *)
(* ===================================================================== *)

Section odict_more.
Context {K V : Type} `{EqDecision K}.
Implicit Types d : list (K * V).

Lemma odict_get_elem k v d : odict_get k d = Some v → (k, v) ∈ d.
Proof.
  induction d as [|[k' v'] d IH]; simpl; [done|].
  destruct (decide (k = k')) as [-> | Hne].
  - intros [= ->]. apply list_elem_of_here.
  - intros Hd. by apply list_elem_of_further, IH.
Qed.

Lemma odict_set_present k v v0 d :
  odict_get k d = Some v0 → (odict_set k v d).*1 = d.*1.
Proof.
  intros Hget. destruct (odict_set_keys k v d) as [-> | [Hnone _]]; [done|].
  congruence.
Qed.

Lemma odict_set_Forall (P : K * V → Prop) k v d :
  Forall P d → P (k, v) → Forall P (odict_set k v d).
Proof.
  intros Hd Hkv. induction Hd as [|[k' v'] d Hx Hd IH]; simpl.
  - by constructor.
  - destruct (decide (k = k')) as [<- | Hne]; by constructor.
Qed.

Lemma odict_of_get (key : V → K) xs k :
  odict_get k (odict_of key xs) = last (filter (λ x, key x = k) xs).
Proof.
  unfold odict_of. induction xs as [|x xs IH] using rev_ind; [done|].
  rewrite foldl_snoc, filter_app, filter_cons, filter_nil.
  destruct (decide (key x = k)) as [<- | Hne].
  - by rewrite odict_get_set_eq, last_snoc.
  - by rewrite odict_get_set_ne, app_nil_r.
Qed.

Lemma odict_of_NoDup (key : V → K) xs : NoDup (odict_of key xs).*1.
Proof.
  apply (foldl_invariant (λ d, NoDup d.*1)); [|constructor].
  intros d x _ Hd. by apply odict_set_NoDup.
Qed.
End odict_more.

(** The summed target of the biscuit lines on stat [s], [None] when there
    is no such line. *)
Fixpoint biscuit_total (s : Type_) (lines : list Equality) : option Decimal :=
  match lines with
  | [] => None
  | line :: rest =>
      if decide (equality_substat line = s)
      then Some (equality_target line
                 + default (dec 0) (biscuit_total s rest))
      else biscuit_total s rest
  end.

Lemma biscuit_total_snoc s lines line :
  biscuit_total s (lines ++ [line])
  = if decide (equality_substat line = s)
    then Some (default (dec 0) (biscuit_total s lines) + equality_target line)
    else biscuit_total s lines.
Proof.
  induction lines as [|l0 lines IH]; simpl.
  - case_decide; [|done]. by rewrite dec_plus_0_l, dec_plus_0_r.
  - rewrite IH.
    destruct (decide (equality_substat l0 = s)),
             (decide (equality_substat line = s)); simpl; try done.
    by rewrite Qcplus_assoc.
Qed.

Definition Equality_of (s : Type_) (t : Decimal) : Equality :=
  {| equality_substat := s; equality_target := t |}.

Lemma merged_get lines s :
  odict_get (Type_name s) (foldl merge_biscuit_line [] lines)
  = Equality_of s <$> biscuit_total s lines.
Proof.
  revert s. induction lines as [|line lines IH] using rev_ind; intros s;
    [done|].
  rewrite foldl_snoc, biscuit_total_snoc. unfold merge_biscuit_line at 1.
  rewrite IH.
  destruct (biscuit_total (equality_substat line) lines) as [t|] eqn:Ht;
    simpl.
  - destruct (decide (equality_substat line = s)) as [<- | Hne].
    + by rewrite odict_get_set_eq, Ht.
    + rewrite odict_get_set_ne; [apply IH|].
      intros Heq. by apply Type_name_inj in Heq.
  - destruct (decide (equality_substat line = s)) as [<- | Hne].
    + rewrite odict_get_set_eq, Ht. simpl. rewrite dec_plus_0_l.
      by destruct line.
    + rewrite odict_get_set_ne; [apply IH|].
      intros Heq. by apply Type_name_inj in Heq.
Qed.

Lemma merged_keys lines :
  NoDup (foldl merge_biscuit_line [] lines).*1
  ∧ Forall (λ km, km.1 = Type_name (equality_substat km.2))
           (foldl merge_biscuit_line [] lines).
Proof.
  apply (foldl_invariant
           (λ d, NoDup d.*1
                 ∧ Forall (λ km, km.1 = Type_name (equality_substat km.2)) d));
    [|split; constructor].
  intros d line _ [Hnodup Hkeys]. unfold merge_biscuit_line.
  destruct (odict_get _ d) as [m|] eqn:Hm.
  - split; [by apply odict_set_NoDup|].
    apply odict_set_Forall; [done|]. simpl.
    apply odict_get_elem in Hm. rewrite Forall_forall in Hkeys.
    by apply (Hkeys _ Hm).
  - split; [by apply odict_set_NoDup | by apply odict_set_Forall].
Qed.

Lemma elem_of_merged lines s t :
  Equality_of s t ∈ (foldl merge_biscuit_line [] lines).*2
  ↔ biscuit_total s lines = Some t.
Proof.
  destruct (merged_keys lines) as [Hnodup Hkeys].
  rewrite Forall_forall in Hkeys. rewrite list_elem_of_fmap. split.
  - intros ([k m] & Hm & Hin). simpl in Hm. subst m.
    pose proof (Hkeys _ Hin) as Hk. simpl in Hk. subst k.
    apply odict_elem_of in Hin; [|done]. rewrite merged_get in Hin.
    destruct (biscuit_total s lines); [|done]. by injection Hin as ->.
  - intros Ht. exists (Type_name s, Equality_of s t). split; [done|].
    apply odict_elem_of; [done|]. by rewrite merged_get, Ht.
Qed.

Lemma merged_stats_NoDup lines :
  NoDup (equality_substat <$> (foldl merge_biscuit_line [] lines).*2).
Proof.
  destruct (merged_keys lines) as [Hnodup Hkeys].
  apply (NoDup_fmap_1 Type_name).
  replace (Type_name <$> (equality_substat <$>
             (foldl merge_biscuit_line [] lines).*2))
    with (foldl merge_biscuit_line [] lines).*1; [done|].
  rewrite <- !list_fmap_compose. apply Forall_fmap_ext_1.
  eapply Forall_impl; [exact Hkeys|]. by intros [k m].
Qed.


(** The biscuit target that the loop of [adjusted_valid] finds for the
    key [n]. *)
Fixpoint biscuit_for (n : string) (bs : list Equality) : option Decimal :=
  match bs with
  | [] => None
  | b :: bs' =>
      if decide (Type_name (equality_substat b) = n)
      then Some (equality_target b)
      else biscuit_for n bs'
  end.

Lemma biscuit_for_Some n bs t :
  biscuit_for n bs = Some t →
  ∃ b, b ∈ bs ∧ Type_name (equality_substat b) = n ∧ equality_target b = t.
Proof.
  induction bs as [|b bs IH]; simpl; [done|]. case_decide.
  - intros [= <-]. exists b. split; [apply list_elem_of_here | done].
  - intros (b' & Hin & Hb')%IH. exists b'.
    split; [by apply list_elem_of_further | done].
Qed.

Lemma biscuit_for_None n bs b :
  biscuit_for n bs = None → b ∈ bs → Type_name (equality_substat b) ≠ n.
Proof.
  induction bs as [|b' bs IH]; simpl; [by intros _ ?%elem_of_nil|].
  case_decide; [done|]. intros Hnone [-> | Hin]%elem_of_cons; [done|].
  by apply IH.
Qed.

Lemma adjust_step_get d b n :
  odict_get n (adjust_biscuit_line d b)
  = if decide (Type_name (equality_substat b) = n)
    then (λ line, adjust_line line (equality_target b)) <$> odict_get n d
    else odict_get n d.
Proof.
  unfold adjust_biscuit_line.
  destruct (decide (Type_name (equality_substat b) = n)) as [<- | Hne].
  - destruct (odict_get _ d) as [line|] eqn:Hline; simpl.
    + by rewrite odict_get_set_eq.
    + done.
  - destruct (odict_get (Type_name (equality_substat b)) d); [|done].
    by rewrite odict_get_set_ne.
Qed.

Lemma adjust_loop_get bs d n :
  NoDup (equality_substat <$> bs) →
  odict_get n (foldl adjust_biscuit_line d bs)
  = (λ line, match biscuit_for n bs with
             | Some b => adjust_line line b
             | None => line
             end) <$> odict_get n d.
Proof.
  revert d. induction bs as [|b bs IH]; intros d; csimpl.
  - intros _. by destruct (odict_get n d).
  - intros [Hb Hbs]%NoDup_cons. rewrite IH, adjust_step_get by done.
    destruct (decide (Type_name (equality_substat b) = n)) as [<- | Hne].
    + destruct (biscuit_for _ bs) as [t|] eqn:Hfor.
      * apply biscuit_for_Some in Hfor as (b' & Hin & Hname & _).
        apply Type_name_inj in Hname. destruct Hb. rewrite <- Hname.
        by apply list_elem_of_fmap_2.
      * by destruct (odict_get _ d).
    + done.
Qed.

Lemma adjust_loop_keys bs d :
  (foldl adjust_biscuit_line d bs).*1 = d.*1.
Proof.
  revert d. induction bs as [|b bs IH]; intros d; simpl; [done|].
  rewrite IH. unfold adjust_biscuit_line.
  destruct (odict_get _ d) eqn:Hget; [|done].
  by eapply odict_set_present.
Qed.

Lemma adjust_line_substat line b :
  Valid_substat (adjust_line line b) = Valid_substat line.
Proof. by destruct line. Qed.

(** The targets that a constraint carries. *)
Definition Valid_targets (line : Valid) : list Decimal :=
  match line with
  | VNormal v => [target v]
  | VRange v => [low_target v; high_target v]
  | VEquality v => [equality_target v]
  | VRelative _ => []
  end.

Lemma adjust_line_nonneg line b :
  Forall (λ x, dec 0 ≤ x) (Valid_targets (adjust_line line b)).
Proof.
  destruct line; simpl; repeat constructor; unfold offset; apply dmax_ge_r.
Qed.

(** What [adjusted_valid] is expected to hold for stat [s]: the last line
    of [valid] on [s], offset by the summed biscuit on [s] if there is
    one. *)
Definition adjusted_line (self : t) (s : Type_) : option Valid :=
  (λ orig, match biscuit_total s (default [] (biscuit self)) with
           | Some b => adjust_line orig b
           | None => orig
           end)
  <$> last (filter (λ line, Valid_substat line = s) (valid self)).

Lemma adjusted_valid_unfold self :
  _adjusted_valid self = None →
  adjusted_valid self
  = (foldl adjust_biscuit_line
       (odict_of (λ line, Type_name (Valid_substat line)) (valid self))
       (default [] (merged_biscuit self))).*2.
Proof.
  intros Hnone. unfold adjusted_valid. rewrite Hnone.
  by destruct (merged_biscuit self) as [[|b bs]|].
Qed.

Lemma merged_biscuit_for self s :
  biscuit_for (Type_name s) (default [] (merged_biscuit self))
  = biscuit_total s (default [] (biscuit self)).
Proof.
  unfold merged_biscuit. destruct (biscuit self) as [[|line lines]|];
    [done | | done]. simpl default.
  pose proof (elem_of_merged (line :: lines)) as Hmerged.
  destruct (biscuit_for (Type_name s) _) as [t|] eqn:Hfor.
  - apply biscuit_for_Some in Hfor as (b & Hin & Hname & <-).
    apply Type_name_inj in Hname. subst s. symmetry.
    apply Hmerged. by destruct b.
  - destruct (biscuit_total s (line :: lines)) as [t|] eqn:Ht; [|done].
    apply Hmerged in Ht.
    by destruct (biscuit_for_None _ _ _ Hfor Ht).
Qed.

Lemma merged_biscuit_NoDup self :
  NoDup (equality_substat <$> default [] (merged_biscuit self)).
Proof.
  unfold merged_biscuit. destruct (biscuit self) as [[|line lines]|];
    [constructor | | constructor]. apply merged_stats_NoDup.
Qed.

Lemma adjusted_valid_get self s :
  odict_get (Type_name s)
    (foldl adjust_biscuit_line
       (odict_of (λ line, Type_name (Valid_substat line)) (valid self))
       (default [] (merged_biscuit self)))
  = adjusted_line self s.
Proof.
  rewrite adjust_loop_get by apply merged_biscuit_NoDup.
  rewrite merged_biscuit_for, odict_of_get. unfold adjusted_line.
  f_equal. f_equal. apply list_filter_iff. intros line. split; [|by intros ->].
  apply Type_name_inj.
Qed.

Lemma adjusted_line_substat self s line :
  adjusted_line self s = Some line → Valid_substat line = s.
Proof.
  unfold adjusted_line.
  destruct (last _) as [orig|] eqn:Hlast; [simpl | done].
  apply last_Some in Hlast as [l' Hl'].
  assert (orig ∈ filter (λ line, Valid_substat line = s) (valid self))
    as [Horig _]%list_elem_of_filter.
  { rewrite Hl'. apply elem_of_app. right. apply list_elem_of_here. }
  intros [= <-]. destruct (biscuit_total _ _); [|done].
  by rewrite adjust_line_substat.
Qed.

(** An entry of the dictionary that the getter builds sits under the name
    of its own stat and is the adjusted last line on that stat. *)
Lemma adjusted_valid_entries self k line :
  (k, line) ∈ foldl adjust_biscuit_line
                (odict_of (λ line, Type_name (Valid_substat line))
                   (valid self))
                (default [] (merged_biscuit self)) →
  k = Type_name (Valid_substat line)
  ∧ adjusted_line self (Valid_substat line) = Some line.
Proof.
  intros Hin. apply odict_elem_of in Hin;
    [|rewrite adjust_loop_keys; apply odict_of_NoDup].
  assert (∃ s, k = Type_name s) as [s ->].
  { rewrite adjust_loop_get in Hin by apply merged_biscuit_NoDup.
    rewrite odict_of_get in Hin.
    destruct (last _) as [orig|] eqn:Hlast; [|done].
    apply last_Some in Hlast as [l' Hl'].
    assert (orig ∈ filter (λ line, Type_name (Valid_substat line) = k)
                     (valid self)) as [Horig _]%list_elem_of_filter.
    { rewrite Hl'. apply elem_of_app. right. apply list_elem_of_here. }
    by eexists. }
  rewrite adjusted_valid_get in Hin.
  by rewrite (adjusted_line_substat _ _ _ Hin).
Qed.

(** The getter of [adjusted_valid] keeps one constraint per stat: the
    last line of [valid] on that stat, its targets lowered by the summed
    biscuit on the stat and floored at zero when the cookie has a biscuit
    line on it.  Earlier lines on the same stat are dropped. *)
Theorem adjusted_valid_lines (self : t) :
  _adjusted_valid self = None →
  NoDup (Valid_substat <$> adjusted_valid self)
  ∧ ∀ line, line ∈ adjusted_valid self
            ↔ adjusted_line self (Valid_substat line) = Some line.
Proof.
  intros Hnone. rewrite (adjusted_valid_unfold _ Hnone).
  set (d := foldl adjust_biscuit_line _ _).
  assert (NoDup d.*1) as Hnodup.
  { unfold d. rewrite adjust_loop_keys. apply odict_of_NoDup. }
  assert (∀ k line, (k, line) ∈ d →
            k = Type_name (Valid_substat line)
            ∧ adjusted_line self (Valid_substat line) = Some line) as Hd
    by (intros k line; apply adjusted_valid_entries).
  split.
  - apply (NoDup_fmap_1 Type_name).
    replace (Type_name <$> (Valid_substat <$> d.*2)) with d.*1; [done|].
    rewrite <- !list_fmap_compose. apply Forall_fmap_ext_1, Forall_forall.
    intros [k line] Hin. simpl. by apply Hd.
  - intros line. rewrite list_elem_of_fmap. split.
    + intros ([k line'] & -> & Hin). by apply (Hd k).
    + intros Hline. exists (Type_name (Valid_substat line), line).
      split; [done|]. apply odict_elem_of; [done|].
      unfold d. by rewrite adjusted_valid_get.
Qed.

(** Two lines on ATK and two biscuit lines on ATK. *)
Definition biscuit_example : t :=
  Collaborators.requirements_of
    [VNormal {| substat := ATK; op := GE; target := dec 50 |};
     VNormal {| substat := ATK; op := LE; target := dec 30 |}]
    (Single ATK)
    (Some [Equality_of ATK (dec 5); Equality_of ATK (dec 7)]).

Lemma adjusted_valid_lines_witness :
  NoDup (Valid_substat <$> adjusted_valid biscuit_example)
  ∧ ∀ line, line ∈ adjusted_valid biscuit_example
            ↔ adjusted_line biscuit_example (Valid_substat line) = Some line.
Proof. exact (adjusted_valid_lines biscuit_example eq_refl). Defined.

(** Biscuit offset never leaves a negative target: every constraint of
    [adjusted_valid] on a stat that has a biscuit line has all its
    targets at or above zero. *)
Theorem adjusted_valid_offset_nonneg (self : t) (line : Valid) :
  _adjusted_valid self = None →
  line ∈ adjusted_valid self →
  is_Some (biscuit_total (Valid_substat line) (default [] (biscuit self))) →
  Forall (λ x, dec 0 ≤ x) (Valid_targets line).
Proof.
  intros Hnone Hin [b Hb]. rewrite (adjusted_valid_unfold _ Hnone) in Hin.
  apply list_elem_of_fmap in Hin as ([k line'] & -> & Hin).
  apply adjusted_valid_entries in Hin as [_ Hin]. simpl in *.
  unfold adjusted_line in Hin. rewrite Hb in Hin.
  destruct (last _) as [orig|]; [|done]. injection Hin as <-.
  apply adjust_line_nonneg.
Qed.

Lemma adjusted_valid_offset_nonneg_witness :
  Forall (λ x, dec 0 ≤ x)
    (Valid_targets
       (VNormal {| substat := ATK; op := LE;
                   target := offset (dec 30) (dec 5 + (dec 7 + dec 0)) |})).
Proof.
  apply (adjusted_valid_offset_nonneg biscuit_example);
    [done | | by eexists].
  apply list_elem_of_here.
Defined.

(* ===================================================================== *)
(** * [realize] reads the last line of a stat only *)
(* ===================================================================== *)





(* ===================================================================== *)
(** * [sanitize] *)
(* ===================================================================== *)

(** Whether the source of a declared modifier is a key of the baseline
    table for the stat [t]. *)
Definition is_baseline (t : Type_) (mod_ : Buff) : bool :=
  match odict_get (source mod_) (DEFAULT_MODIFIERS_get t) with
  | Some _ => true
  | None => false
  end.

(** A declared modifier on [stat] that repeats a baseline source. *)
Definition baseline_duplicate (stat : string) (mod_ : Buff) : Prop :=
  ∃ t, Type_lookup stat = Some t ∧ is_baseline t mod_ = true.

Lemma filterMr_total {A} (f : A → result bool) (g : A → bool) l :
  (∀ x, x ∈ l → f x = Ok (g x)) →
  filterMr f l = Ok (filter (λ x, g x = false → False) l).
Proof.
  induction l as [|x l IH]; intros Hf; simpl; [done|].
  rewrite (Hf x) by apply list_elem_of_here. simpl.
  rewrite IH by (intros y Hy; by apply Hf, list_elem_of_further). simpl.
  rewrite filter_cons. by destruct (g x).
Qed.

Lemma filter_mods_known stat t mods :
  Type_lookup stat = Some t →
  filter_mods stat mods
  = Ok (filter (λ m, is_baseline t m = true → False) mods).
Proof.
  intros Ht. unfold filter_mods.
  rewrite (filterMr_total _ (λ m, negb (is_baseline t m))).
  - f_equal. apply list_filter_iff. intros m.
    destruct (is_baseline t m); simpl; intuition congruence.
  - intros m _. unfold keep_mod, Type_of, is_baseline. rewrite Ht. simpl.
    by destruct (odict_get _ _).
Qed.

Lemma filter_mods_unknown stat mod_ mods :
  Type_lookup stat = None →
  filter_mods stat (mod_ :: mods) = Err (EnumValueError stat).
Proof.
  intros Ht. unfold filter_mods. simpl. unfold keep_mod, Type_of.
  by rewrite Ht.
Qed.

(** A stat heading of the modifiers section that [sanitize] can read: an
    empty list, or a name that is the value of a [Type] member. *)
Definition readable (item : string * list Buff) : Prop :=
  item.2 = [] ∨ is_Some (Type_lookup item.1).

Lemma filter_step_readable filtered item :
  readable item →
  ∃ kept, filter_mods item.1 item.2 = Ok kept
          ∧ (∀ m, m ∈ kept ↔ m ∈ item.2 ∧ ¬ baseline_duplicate item.1 m)
          ∧ filter_step filtered item
            = Ok (match kept with
                  | [] => filtered
                  | _ => odict_set item.1 kept filtered
                  end).
Proof.
  destruct item as [stat mods]. intros [Hnil | [t Ht]]; simpl in *.
  - subst mods. exists []. split; [done|]. split; [|done].
    intros m. split; [by intros ?%elem_of_nil | by intros [?%elem_of_nil _]].
  - rewrite (filter_mods_known _ _ _ Ht). eexists. split; [done|]. split.
    + intros m. rewrite list_elem_of_filter. unfold baseline_duplicate.
      split.
      * intros [Hm Hin]. split; [done|]. intros (t' & Ht' & Hb).
        apply Hm. congruence.
      * intros [Hin Hm]. split; [|done]. intros Hb. apply Hm. by exists t.
    + simpl. by destruct (filter _ mods).
Qed.

Lemma filter_step_unreadable filtered item :
  ¬ readable item → filter_step filtered item = Err (EnumValueError item.1).
Proof.
  destruct item as [stat [|m mods]]; unfold readable; simpl; intros Hr.
  - destruct Hr. by left.
  - destruct (Type_lookup stat) as [t|] eqn:Ht.
    + destruct Hr. by right.
    + by rewrite filter_mods_unknown.
Qed.

(** The state of [filtered_mods] after the stat headings [declared]: no
    empty list and no baseline duplicate in it, everything in it was
    declared, and the dictionary is empty only if nothing survives. *)
Definition filtered_from (declared filtered : list (string * list Buff))
    : Prop :=
  NoDup filtered.*1
  ∧ Forall (λ item, item.2 ≠ []
                    ∧ Forall (λ m, ¬ baseline_duplicate item.1 m) item.2
                    ∧ ∃ mods, (item.1, mods) ∈ declared
                              ∧ ∀ m, m ∈ item.2 → m ∈ mods) filtered
  ∧ (filtered = [] →
     Forall (λ item, Forall (baseline_duplicate item.1) item.2) declared).

Lemma baseline_duplicate_dec stat m :
  baseline_duplicate stat m ∨ ¬ baseline_duplicate stat m.
Proof.
  unfold baseline_duplicate. destruct (Type_lookup stat) as [t|].
  - destruct (is_baseline t m) eqn:Hb.
    + left. by exists t.
    + right. intros (t' & [= <-] & Hb'). congruence.
  - right. by intros (t' & ? & _).
Qed.

Lemma filter_loop_Ok declared :
  Forall readable declared →
  ∃ filtered, foldlM filter_step [] declared = Ok filtered
              ∧ filtered_from declared filtered.
Proof.
  induction declared as [|item declared IH] using rev_ind; intros Hread.
  - exists []. split; [done|]. split; [constructor|].
    split; [constructor | by intros _].
  - apply Forall_app in Hread as [Hdecl [Hitem _]%Forall_cons].
    destruct (IH Hdecl) as (filtered & Hloop & Hnodup & Hclean & Hempty).
    destruct (filter_step_readable filtered item Hitem)
      as (kept & _ & Hkept & Hstep).
    rewrite foldlM_app, Hloop. simpl. rewrite Hstep. simpl.
    eexists. split; [done|].
    assert (Forall (λ item0, item0.2 ≠ []
              ∧ Forall (λ m, ¬ baseline_duplicate item0.1 m) item0.2
              ∧ ∃ mods, (item0.1, mods) ∈ declared ++ [item]
                        ∧ ∀ m, m ∈ item0.2 → m ∈ mods) filtered)
      as Hclean'.
    { eapply Forall_impl; [exact Hclean|].
      intros item0 (? & ? & mods & Hin & ?). repeat split; try done.
      exists mods. split; [|done]. apply elem_of_app. by left. }
    destruct kept as [|m kept].
    + split; [done|]. split; [done|]. intros Hnil.
      apply Forall_app. split; [by apply Hempty|].
      constructor; [|constructor]. apply Forall_forall. intros m Hm.
      destruct (baseline_duplicate_dec item.1 m) as [Hd | Hd]; [done|].
      assert (m ∈ []) as ?%elem_of_nil by (by apply Hkept). done.
    + split; [by apply odict_set_NoDup|]. split.
      * apply odict_set_Forall; [done|]. simpl. split; [done|]. split.
        -- apply Forall_forall. intros m' Hm'. by apply Hkept.
        -- exists item.2. split.
           ++ apply elem_of_app. right. apply list_elem_of_singleton.
              by destruct item.
           ++ intros m' Hm'. by apply Hkept.
      * intros Hnil. exfalso.
        assert (odict_get item.1 (odict_set item.1 (m :: kept) filtered)
                = Some (m :: kept)) as Hget by apply odict_get_set_eq.
        by rewrite Hnil in Hget.
Qed.

Lemma filter_loop_raise known item rest :
  Forall readable known → ¬ readable item →
  foldlM filter_step [] (known ++ item :: rest)
  = Err (EnumValueError item.1).
Proof.
  intros Hknown Hitem.
  destruct (filter_loop_Ok known Hknown) as (filtered & Hloop & _).
  rewrite foldlM_app, Hloop. simpl. by rewrite filter_step_unreadable.
Qed.

Lemma filter_loop declared :
  (Forall readable declared →
   ∃ filtered, foldlM filter_step [] declared = Ok filtered
               ∧ filtered_from declared filtered)
  ∧ (∀ known item rest,
       declared = known ++ item :: rest → Forall readable known →
       ¬ readable item →
       foldlM filter_step [] declared = Err (EnumValueError item.1)).
Proof.
  split; [apply filter_loop_Ok|].
  intros known item rest ->. apply filter_loop_raise.
Qed.

Lemma readable_dec item : readable item ∨ ¬ readable item.
Proof.
  unfold readable. destruct item as [stat [|m mods]]; simpl.
  - left. by left.
  - destruct (Type_lookup stat); [left; by right|].
    right. by intros [? | [? ?]].
Qed.

(** Either every heading is readable, or there is a first one that is
    not. *)
Lemma first_unreadable (l : list (string * list Buff)) :
  Forall readable l
  ∨ ∃ known item rest, l = known ++ item :: rest
                       ∧ Forall readable known ∧ ¬ readable item.
Proof.
  induction l as [|x l IH]; [left; constructor|].
  destruct (readable_dec x) as [Hx | Hx].
  - destruct IH as [Hl | (known & item & rest & -> & Hk & Hi)].
    + left. by constructor.
    + right. exists (x :: known), item, rest. split; [done|].
      split; [by constructor | done].
  - right. exists [], x, l. split; [done|]. split; [constructor | done].
Qed.




(** What [sanitize] does to the modifiers section.  When at least one
    declared modifier is not a baseline duplicate, the section is
    replaced by one without baseline duplicates and without empty lists,
    made of declared modifiers only.  When every declared modifier is a
    baseline duplicate, the section is left as it was, duplicates
    included. *)
Theorem sanitize_modifiers (requirements : Document)
    (rem_leaderboard : bool) (sanitized : Document) :
  sanitize requirements rem_leaderboard = Ok sanitized →
  let declared := default [] (modifiers requirements) in
  (Forall (λ item, Forall (baseline_duplicate item.1) item.2) declared →
   modifiers sanitized = modifiers requirements)
  ∧ (¬ Forall (λ item, Forall (baseline_duplicate item.1) item.2) declared →
     ∃ kept,
       modifiers sanitized = Some kept ∧ NoDup kept.*1
       ∧ Forall (λ item, item.2 ≠ []
                   ∧ Forall (λ m, ¬ baseline_duplicate item.1 m) item.2
                   ∧ ∃ mods, (item.1, mods) ∈ declared
                             ∧ ∀ m, m ∈ item.2 → m ∈ mods) kept).
Proof.
  intros Hsan declared.
  assert (Forall readable declared) as Hread.
  { destruct (first_unreadable declared)
      as [Hread | (known & item & rest & Hsplit & Hk & Hi)]; [done|].
    unfold sanitize in Hsan. fold declared in Hsan.
    rewrite Hsplit, (filter_loop_raise _ _ _ Hk Hi) in Hsan. done. }
  destruct (proj1 (filter_loop declared) Hread)
    as (filtered & Hloop & Hnodup & Hclean & Hempty).
  unfold sanitize in Hsan. fold declared in Hsan. rewrite Hloop in Hsan.
  simpl in Hsan. injection Hsan as <-. simpl. split.
  - intros Hall. destruct filtered as [|[stat kept] filtered]; [done|].
    exfalso. apply Forall_cons in Hclean as [(Hne & Hkept & mods & Hin & Hsub) _].
    simpl in *. destruct kept as [|m kept]; [done|].
    apply Forall_cons in Hkept as [Hm _]. apply Hm.
    rewrite Forall_forall in Hall. specialize (Hall _ Hin). simpl in Hall.
    rewrite Forall_forall in Hall. apply Hall, Hsub, list_elem_of_here.
  - intros Hsome. destruct filtered as [|item filtered].
    + destruct Hsome. by apply Hempty.
    + by eexists.
Qed.

(** A document whose only declared modifier repeats the baseline
    ["Base"] of ATK. *)
Definition repeated_base : Document :=
  {| modifiers := Some [("ATK", [ {| source := "Base"; value := dec 100 |} ])];
     leaderboard := None; cookies := None |}.

Lemma sanitize_modifiers_witness :
  match sanitize repeated_base false with
  | Ok sanitized =>
      modifiers sanitized
      = Some [("ATK", [ {| source := "Base"; value := dec 100 |} ])]
  | Err _ => False
  end.
Proof.
  destruct (sanitize repeated_base false) as [sanitized|e] eqn:Hsan.
  - apply (proj1 (sanitize_modifiers repeated_base false sanitized Hsan)).
    constructor; [|constructor]. constructor; [|constructor].
    exists ATK. by split.
  - vm_compute in Hsan. discriminate.
Defined.

(* ===================================================================== *)
(** * [from_yaml]: the modifier totals *)
(* ===================================================================== *)












(* ===================================================================== *)
(** * [from_yaml]: the objective clause and its overrides *)
(* ===================================================================== *)





(* ===================================================================== *)
(** * [from_yaml]: the loops over the cookies and their lines *)
(* ===================================================================== *)

Section from_yaml_facts.
Context (Normal_parse : string → option Normal)
        (Range_parse : string → option Range)
        (Equality_parse : string → option Equality)
        (Relative_parse : string → option Relative)
        (Cookie_get_resonant : string → option (list Resonance))
        (EDMG_bounds Vitality_bounds : gmap Type_ Decimal → gmap Type_ Bounds).

Local Abbreviation parse_valid :=
  (parse_valid_requirement Normal_parse Range_parse Equality_parse
     Relative_parse).
Local Abbreviation parse_objective :=
  (parse_objective_requirement EDMG_bounds Vitality_bounds).
Local Abbreviation step :=
  (requirement_step Normal_parse Range_parse Equality_parse Relative_parse
     EDMG_bounds Vitality_bounds).
Local Abbreviation compile :=
  (compile_cookie Normal_parse Range_parse Equality_parse Relative_parse
     Cookie_get_resonant EDMG_bounds Vitality_bounds).
Local Abbreviation load :=
  (from_yaml Normal_parse Range_parse Equality_parse Relative_parse
     Cookie_get_resonant EDMG_bounds Vitality_bounds).

(** What a line of [cookie["requirements"]] adds to [valid_reqs]. *)
Definition parse_line (item : YItem) : option Valid :=
  match item with
  | IStr s => parse_valid s
  | _ => None
  end.

(** What a line of [cookie["biscuit"]] adds to [parsed_biscuit]. *)
Definition parse_biscuit_line (item : YItem) : option Equality :=
  match item with
  | IStr s => Equality_parse s
  | _ => None
  end.

(** The lines that are dictionaries: the objective clauses. *)
Definition is_clause (item : YItem) : bool :=
  match item with
  | IDict _ => true
  | _ => false
  end.



(** The state [(valid_reqs, objective, cookie_mods)] after the lines
    [lines] of a cookie, with [seen] the names of the cookies before it
    and [base] the accumulated modifiers. *)
Definition requirements_parsed (seen : gset string)
    (base : gmap Type_ Decimal) (lines : list YItem)
    (st : list Valid * option Objective * gmap Type_ Decimal) : Prop :=
  st.1.1 = omap parse_line lines
  ∧ (∀ rel, VRelative rel ∈ st.1.1 → cookie rel ∈ seen)
  ∧ match st.1.2 with
    | None => st.2 = base ∧ filter is_clause lines = []
    | Some o =>
        ∃ clause, filter is_clause lines = [IDict clause]
                  ∧ parse_objective clause base = Ok (o, st.2)
                  ∧ ∀ m, o ≠ Combo [] m
    end.

Lemma requirement_step_Ok name seen base lines st item st' :
  requirements_parsed seen base lines st →
  step name seen st item = Ok st' →
  requirements_parsed seen base (lines ++ [item]) st'.
Proof.
  destruct st as [[valid_reqs o] cookie_mods].
  intros (Hvalid & Hrel & Hobj). simpl in *.
  destruct item as [s|clause|]; simpl.
  - assert (∀ v, parse_valid s = Some v →
              (∀ rel, v = VRelative rel → cookie rel ∈ seen) →
              requirements_parsed seen base (lines ++ [IStr s])
                (valid_reqs ++ [v], o, cookie_mods)) as Hadd.
    { intros v Hv Hseen. unfold requirements_parsed.
      rewrite omap_app, filter_app. csimpl. rewrite Hv. simpl.
      split; [by rewrite Hvalid|]. split.
      - intros rel [Hin | Heq%list_elem_of_singleton]%elem_of_app;
          [by apply Hrel | by apply Hseen].
      - rewrite filter_cons_False by (simpl; tauto).
        rewrite filter_nil, app_nil_r. done. }
    destruct (parse_valid s) as [[v|v|v|rel]|] eqn:Hs; try done;
      try (intros [= <-]; by apply Hadd).
    case_decide as Hseen; [|done].
    intros [= <-]. apply Hadd; [done|]. by intros rel' [= <-].
  - destruct o as [o|]; [done|]. destruct Hobj as [-> Hnone].
    destruct (odict_get "max" clause); [simpl | done].
    intros ([o' m'] & Hparsed & Hkind)%bind_Ok. simpl in *.
    assert (st' = (valid_reqs, Some o', m') ∧ ∀ m, o' ≠ Combo [] m)
      as [-> Hcombo].
    { destruct o' as [|[|] |  |]; try done;
        by injection Hkind as <-. }
    unfold requirements_parsed. rewrite omap_app, filter_app. simpl.
    rewrite app_nil_r. split; [done|]. split; [done|].
    exists clause. rewrite Hnone. by rewrite filter_cons_True.
  - intros [= <-]. unfold requirements_parsed.
    rewrite omap_app, filter_app. simpl. rewrite !app_nil_r.
    by split.
Qed.

Lemma requirement_loop name seen base lines st :
  foldlM (step name seen) ([], None, base) lines = Ok st →
  requirements_parsed seen base lines st.
Proof.
  revert st. induction lines as [|item lines IH] using rev_ind; intros st.
  - intros [= <-]. repeat split; simpl; [|done..].
    by intros rel ?%elem_of_nil.
  - rewrite foldlM_app.
    intros (st1 & Hst1 & (st2 & Hst2 & [= <-])%bind_Ok)%bind_Ok.
    eapply requirement_step_Ok; [by apply IH | exact Hst2].
Qed.

Lemma biscuit_loop name lines acc parsed :
  foldlM (biscuit_step Equality_parse name) acc lines = Ok parsed →
  parsed = acc ++ omap parse_biscuit_line lines.
Proof.
  revert acc. induction lines as [|item lines IH]; intros acc; simpl.
  - intros [= <-]. by rewrite app_nil_r.
  - intros (acc1 & Hitem & ->%IH)%bind_Ok. csimpl.
    destruct item as [s| |]; simpl in *; try by injection Hitem as <-.
    unfold parse_valid_biscuit_line in Hitem.
    destruct (Equality_parse s); [|done]. injection Hitem as <-.
    by rewrite <- app_assoc.
Qed.

(** What [from_yaml] built for the cookie [c] of the document. *)
Definition cookie_compiled (doc : Document) (base : gmap Type_ Decimal)
    (seen : gset string) (c : CookieDoc) (r : t) : Prop :=
  name r = doc_name c ∧ _adjusted_valid r = None
  ∧ weight r = parse_weight doc c
  ∧ parse_resonances Cookie_get_resonant c = Ok (resonance r)
  ∧ parse_tart Equality_parse c = Ok (tart r)
  ∧ biscuit r = Some (omap parse_biscuit_line (default [] (doc_biscuit c)))
  ∧ ∃ lines, doc_requirements c = Some lines
             ∧ requirements_parsed seen base lines
                 (valid r, Some (objective r), mods r).

Lemma compile_cookie_Ok doc base cs seen c st' :
  compile doc base (cs, seen) c = Ok st' →
  ∃ r, st' = (cs ++ [r], {[doc_name c]} ∪ seen)
       ∧ cookie_compiled doc base seen c r.
Proof.
  unfold compile_cookie.
  destruct (doc_requirements c) as [lines|] eqn:Hlines; [simpl | done].
  intros ([[valid_reqs o] cookie_mods] & Hreqs%requirement_loop & Hrest)%bind_Ok.
  apply bind_Ok in Hrest as (resonances & Hres & Hrest).
  apply bind_Ok in Hrest as (parsed_tart & Htart & Hrest).
  apply bind_Ok in Hrest as (parsed_biscuit & ->%biscuit_loop & Hrest).
  apply bind_Ok in Hrest as (r & Hr & [= <-]).
  destruct o as [o|]; [|done]. injection Hr as <-.
  eexists. split; [done|]. unfold cookie_compiled. simpl.
  repeat split; try done. by exists lines.
Qed.

Lemma seen_cons (x : string) (l : list string) (X : gset string) :
  list_to_set l ∪ ({[x]} ∪ X) = list_to_set (x :: l) ∪ X.
Proof. simpl. rewrite (assoc_L (∪)). f_equal. apply (comm_L (∪)). Qed.

Lemma compile_loop doc base docs cs0 seen0 cs seen :
  foldlM (compile doc base) (cs0, seen0) docs = Ok (cs, seen) →
  ∃ rs, cs = cs0 ++ rs ∧ length rs = length docs
        ∧ seen = list_to_set (doc_name <$> docs) ∪ seen0
        ∧ ∀ i c r, docs !! i = Some c → rs !! i = Some r →
            cookie_compiled doc base
              (list_to_set (doc_name <$> take i docs) ∪ seen0) c r.
Proof.
  revert cs0 seen0. induction docs as [|c docs IH]; intros cs0 seen0.
  - intros [= <- <-]. exists []. rewrite app_nil_r.
    split; [done|]. split; [done|].
    split; [by rewrite fmap_nil, list_to_set_nil, (left_id_L ∅ (∪))|].
    intros i c r Hc. by rewrite lookup_nil in Hc.
  - intros Hloop. simpl in Hloop.
    apply bind_Ok in Hloop as (st1 & (r & -> & Hr)%compile_cookie_Ok & Hrest).
    destruct (IH _ _ Hrest) as (rs & -> & Hlen & -> & Hrs).
    exists (r :: rs). rewrite <- app_assoc.
    split; [done|]. split; [simpl; by rewrite Hlen|].
    split; [by rewrite fmap_cons, seen_cons|].
    intros [|i] c' r'.
    + intros [= <-] [= <-].
      by rewrite take_0, fmap_nil, list_to_set_nil, (left_id_L ∅ (∪)).
    + intros Hc' Hr'. specialize (Hrs _ _ _ Hc' Hr').
      by rewrite firstn_cons, fmap_cons, <- seen_cons.
Qed.

(** What a successful [from_yaml] has done: accumulated the modifiers,
    then built one instance per cookie of the document, in order, each
    against the names of the cookies before it. *)
Lemma from_yaml_Ok doc rs :
  load doc = Ok rs →
  ∃ base docs,
    accumulate_mods doc = Ok base ∧ cookies doc = Some docs
    ∧ length rs = length docs
    ∧ ∀ i c r, docs !! i = Some c → rs !! i = Some r →
        cookie_compiled doc base
          (list_to_set (doc_name <$> take i docs)) c r.
Proof.
  unfold from_yaml. intros (base & Hbase & Hrest)%bind_Ok.
  destruct (cookies doc) as [docs|]; [simpl in Hrest | done].
  apply bind_Ok in Hrest as ([cs seen] & Hloop & [= <-]).
  apply compile_loop in Hloop as (rs & -> & Hlen & _ & Hrs).
  exists base, docs. split; [done|]. split; [done|]. split; [done|].
  intros i c r Hc Hr. specialize (Hrs _ _ _ Hc Hr).
  by rewrite (right_id_L ∅ (∪)) in Hrs.
Qed.

(** ** What a successful [from_yaml] returns *)

(** [from_yaml] returns one instance per cookie of the document, in the
    order of the document.  An instance carries the name of its cookie,
    the weight that the leaderboard gives it, no cached constraint list,
    a resonance list that ends with [NORMAL], the parsed string lines of
    [requirements] as [valid] and those of [biscuit] as [biscuit], both
    in the order of the document; and exactly one line of [requirements]
    is an objective clause. *)
Theorem from_yaml_cookies (doc : Document) (rs : list t) :
  load doc = Ok rs →
  ∃ docs,
    cookies doc = Some docs ∧ length rs = length docs
    ∧ ∀ i c r, docs !! i = Some c → rs !! i = Some r →
        name r = doc_name c ∧ weight r = parse_weight doc c
        ∧ _adjusted_valid r = None
        ∧ last (resonance r) = Some NORMAL
        ∧ biscuit r
          = Some (omap parse_biscuit_line (default [] (doc_biscuit c)))
        ∧ ∃ lines, doc_requirements c = Some lines
                   ∧ valid r = omap parse_line lines
                   ∧ length (filter is_clause lines) = 1%nat.
Proof.
  intros (base & docs & _ & Hdocs & Hlen & Hrs)%from_yaml_Ok.
  exists docs. split; [done|]. split; [done|].
  intros i c r Hc Hr.
  destruct (Hrs _ _ _ Hc Hr)
    as (Hname & Hadj & Hweight & Hres & _ & Hbiscuit & lines & Hlines
        & Hvalid & _ & clause & Hclause & _).
  repeat split; try done.
  - unfold parse_resonances in Hres.
    apply bind_Ok in Hres as (res & _ & [= <-]). apply last_snoc.
  - exists lines. split; [done|]. split; [done|].
    simpl in Hclause. by rewrite Hclause.
Qed.

(** Every Relative constraint of a returned instance names a cookie that
    stands earlier in the document. *)
Theorem from_yaml_relative_seen (doc : Document) (rs : list t)
    (docs : list CookieDoc) (i : nat) (r : t) (rel : Relative) :
  load doc = Ok rs → cookies doc = Some docs →
  rs !! i = Some r → VRelative rel ∈ valid r →
  ∃ j c, (j < i)%nat ∧ docs !! j = Some c ∧ doc_name c = cookie rel.
Proof.
  intros (base & docs' & _ & Hdocs' & Hlen & Hrs)%from_yaml_Ok Hdocs Hr Hin.
  assert (docs' = docs) as -> by congruence.
  assert (is_Some (docs !! i)) as [c Hc].
  { apply lookup_lt_is_Some. rewrite <- Hlen.
    apply lookup_lt_is_Some. by eexists. }
  destruct (Hrs _ _ _ Hc Hr)
    as (_ & _ & _ & _ & _ & _ & lines & _ & _ & Hseen & _).
  apply Hseen in Hin. simpl in Hin.
  apply elem_of_list_to_set, list_elem_of_fmap in Hin
    as (c' & Hname & (j & Hj & Hlt)%elem_of_take).
  by exists j, c'.
Qed.


(** ** Where the exception on a Relative target comes from *)

(** An exception other than the one on a Relative target. *)
Definition not_unseen (e : error) : Prop :=
  ∀ n, e ≠ RelativeTargetUnseen n.

Lemma mapMr_Err {A B} (f : A → result B) l e :
  mapMr f l = Err e → ∃ x, x ∈ l ∧ f x = Err e.
Proof.
  induction l as [|x l IH]; simpl; [done|].
  intros [Hx | (y & _ & [Hl | (ys & _ & [=])]%bind_Err)]%bind_Err.
  - exists x. split; [apply list_elem_of_here | done].
  - destruct (IH Hl) as (x' & ? & ?). exists x'.
    split; [by apply list_elem_of_further | done].
Qed.

Lemma Type_of_Err s e : Type_of s = Err e → not_unseen e.
Proof.
  unfold Type_of. destruct (Type_lookup s); [done|]. by intros [= <-] n.
Qed.

Lemma add_overrides_Err clause m e :
  add_overrides clause m = Err e → not_unseen e.
Proof.
  unfold add_overrides.
  intros [([s total] & _ & Hs)%mapMr_Err | (l & _ & [=])]%bind_Err.
  apply bind_Err in Hs as [Hs | (delta & _ & [=])].
  unfold override in Hs.
  destruct (odict_get _ clause) as [[| |]|]; try done;
    by injection Hs as <-.
Qed.

Lemma parse_objective_Err clause m e :
  parse_objective clause m = Err e → not_unseen e.
Proof.
  unfold parse_objective_requirement.
  intros [Hmax | (max & _ & [Hkind | (kind & _ & Hrest)]%bind_Err)]%bind_Err.
  - destruct (odict_get "max" clause); [done|]. by injection Hmax as <-.
  - destruct max as [s|d|l]; simpl in Hkind.
    + by eapply Type_of_Err.
    + by injection Hkind as <-.
    + by injection Hkind as <-.
  - destruct kind; try done.
    + apply bind_Err in Hrest
        as [Hraw | (raw & _ & [(x & _ & Hx)%mapMr_Err
                               | (types & _ & [=])]%bind_Err)].
      * destruct (odict_get "substats" clause) as [[| |]|]; try done;
          by injection Hraw as <-.
      * by eapply Type_of_Err.
    + apply bind_Err in Hrest as [Hm | (m' & _ & [=])].
      by eapply add_overrides_Err.
    + apply bind_Err in Hrest as [Hm | (m' & _ & [=])].
      by eapply add_overrides_Err.
Qed.

Lemma requirement_step_Err name seen st item n :
  step name seen st item = Err (RelativeTargetUnseen n) →
  n = name ∧ ∃ s rel, item = IStr s
                      ∧ parse_valid s = Some (VRelative rel)
                      ∧ cookie rel ∉ seen.
Proof.
  destruct st as [[valid_reqs o] cookie_mods].
  destruct item as [s|clause|]; simpl; [| |done].
  - destruct (parse_valid s) as [[v|v|v|rel]|] eqn:Hs; try done.
    case_decide as Hseen; [done|]. intros [= <-]. split; [done|].
    by exists s, rel.
  - destruct o; [done|]. destruct (odict_get "max" clause); [simpl | done].
    intros [Hparse | ([o' m'] & _ & Hcombo)]%bind_Err.
    + by destruct (parse_objective_Err _ _ _ Hparse n).
    + simpl in Hcombo. by destruct o' as [|[|] | |].
Qed.

Lemma accumulate_mods_Err doc e :
  accumulate_mods doc = Err e → not_unseen e.
Proof.
  unfold accumulate_mods.
  intros (_ & item & _ & m & _ & _ & Hitem)%foldlM_Err_inv.
  unfold declared_step in Hitem.
  apply foldlM_Err_inv in Hitem as (_ & buff & _ & m' & _ & _ & Hbuff).
  apply bind_Err in Hbuff as [Hbuff | (? & _ & [=])].
  by eapply Type_of_Err.
Qed.

Lemma compile_cookie_Err doc base cs seen c n :
  compile doc base (cs, seen) c = Err (RelativeTargetUnseen n) →
  n = doc_name c
  ∧ ∃ lines s rel, doc_requirements c = Some lines ∧ IStr s ∈ lines
                   ∧ parse_valid s = Some (VRelative rel)
                   ∧ cookie rel ∉ seen.
Proof.
  unfold compile_cookie.
  destruct (doc_requirements c) as [lines|] eqn:Hlines; [simpl | done].
  intros [Hreqs | ([[valid_reqs o] cookie_mods] & _ & Hrest)]%bind_Err.
  - apply foldlM_Err_inv in Hreqs as (pre & item & post & st & -> & _ & Hitem).
    apply requirement_step_Err in Hitem as (-> & s & rel & -> & Hs & Hseen).
    split; [done|]. exists (pre ++ IStr s :: post), s, rel.
    split; [done|]. split; [|done].
    apply elem_of_app. right. apply list_elem_of_here.
  - exfalso.
    apply bind_Err in Hrest as [Hres | (resonances & _ & Hrest)].
    { unfold parse_resonances in Hres.
      apply bind_Err in Hres as [Hres | (? & _ & [=])].
      destruct (doc_resonant c) as [[|x l]|]; try done.
      apply mapMr_Err in Hres as (x' & _ & Hx'). unfold Resonance_of in Hx'.
      by destruct (find _ _). }
    apply bind_Err in Hrest as [Htart | (parsed_tart & _ & Hrest)].
    { unfold parse_tart in Htart.
      destruct (doc_tart c) as [[|[s| |] [|]]|]; try done.
      unfold parse_valid_tart_line in Htart.
      by destruct (Equality_parse s). }
    apply bind_Err in Hrest as [Hbiscuit | (parsed_biscuit & _ & Hrest)].
    { apply foldlM_Err_inv in Hbiscuit as (_ & item & _ & acc & _ & _ & Hitem).
      destruct item as [s| |]; simpl in Hitem; try done.
      unfold parse_valid_biscuit_line in Hitem.
      by destruct (Equality_parse s). }
    apply bind_Err in Hrest as [Hinit | (r & _ & [=])].
    by destruct o.
Qed.

(** [from_yaml] raises the exception on a Relative target, for the cookie
    named [n], only where the document has such a line: a cookie named
    [n] one of whose [requirements] parses as a Relative constraint on a
    cookie that no earlier cookie of the document is named after. *)
Theorem from_yaml_relative_error (doc : Document) (n : string) :
  load doc = Err (RelativeTargetUnseen n) →
  ∃ docs pre c post lines s rel,
    cookies doc = Some docs ∧ docs = pre ++ c :: post ∧ doc_name c = n
    ∧ doc_requirements c = Some lines ∧ IStr s ∈ lines
    ∧ parse_valid s = Some (VRelative rel)
    ∧ cookie rel ∉ doc_name <$> pre.
Proof.
  unfold from_yaml. intros [Hmods | (base & _ & Hrest)]%bind_Err.
  { by destruct (accumulate_mods_Err _ _ Hmods n). }
  destruct (cookies doc) as [docs|]; [simpl in Hrest | done].
  apply bind_Err in Hrest as [Hloop | (? & _ & [=])].
  apply foldlM_Err_inv in Hloop
    as (pre & c & post & [cs seen] & -> & Hpre & Hc).
  apply compile_loop in Hpre as (_ & _ & _ & -> & _).
  apply compile_cookie_Err in Hc
    as (-> & lines & s & rel & Hlines & Hin & Hs & Hseen).
  exists (pre ++ c :: post), pre, c, post, lines, s, rel.
  repeat split; try done.
  intros Hrel. apply Hseen.
  rewrite (right_id_L ∅ (∪)). by apply elem_of_list_to_set.
Qed.

End from_yaml_facts.

(** ** The properties on a document *)

(** The boolean reading of "the call returned". *)
Definition returned {A} (r : result A) : bool :=
  match r with
  | Ok _ => true
  | Err _ => false
  end.

Lemma two_cookies_returned :
  returned (Collaborators.from_yaml Documents.two_cookies) = true.
Proof. vm_compute. reflexivity. Qed.

Lemma from_yaml_cookies_witness :
  match Collaborators.from_yaml Documents.two_cookies with
  | Ok rs =>
      ∃ docs,
        cookies Documents.two_cookies = Some docs ∧ length rs = length docs
        ∧ ∀ i c r, docs !! i = Some c → rs !! i = Some r →
            name r = doc_name c
            ∧ weight r = parse_weight Documents.two_cookies c
            ∧ _adjusted_valid r = None
            ∧ last (resonance r) = Some NORMAL
            ∧ biscuit r
              = Some (omap (parse_biscuit_line Collaborators.Equality_parse)
                        (default [] (doc_biscuit c)))
            ∧ ∃ lines,
                doc_requirements c = Some lines
                ∧ valid r
                  = omap (parse_line Collaborators.Normal_parse
                            Collaborators.Range_parse
                            Collaborators.Equality_parse
                            Collaborators.Relative_parse) lines
                ∧ length (filter is_clause lines) = 1%nat
  | Err _ => False
  end.
Proof.
  destruct (Collaborators.from_yaml Documents.two_cookies) as [rs|e] eqn:Hload.
  - exact (from_yaml_cookies _ _ _ _ _ _ _ _ _ Hload).
  - pose proof two_cookies_returned as Hret. by rewrite Hload in Hret.
Defined.

Lemma two_cookies_valid :
  map valid <$> Collaborators.from_yaml Documents.two_cookies
  = Ok [[VNormal {| substat := ATK; op := GE; target := dec 50 |}];
        [VRelative {| relative_substat := ATKSPD; relative_op := LE;
                      cookie := "Alpha" |}]].
Proof. vm_compute. reflexivity. Qed.

Lemma from_yaml_relative_seen_witness :
  match Collaborators.from_yaml Documents.two_cookies with
  | Ok rs =>
      ∀ r, rs !! 1%nat = Some r →
           ∃ j c, (j < 1)%nat
                  ∧ default [] (cookies Documents.two_cookies) !! j = Some c
                  ∧ doc_name c = "Alpha"
  | Err _ => False
  end.
Proof.
  pose proof two_cookies_valid as Hvalid.
  destruct (Collaborators.from_yaml Documents.two_cookies) as [rs|e] eqn:Hload;
    [|done].
  intros r Hr.
  refine (from_yaml_relative_seen _ _ _ _ _ _ _ Documents.two_cookies rs _
            1%nat r
            {| relative_substat := ATKSPD; relative_op := LE;
               cookie := "Alpha" |} Hload eq_refl Hr _).
  simpl in Hvalid. injection Hvalid as Hvalid.
  assert (map valid rs !! 1%nat = Some (valid r)) as Hlookup
    by (by rewrite list_lookup_fmap, Hr).
  rewrite Hvalid in Hlookup. injection Hlookup as <-.
  apply list_elem_of_here.
Defined.


Lemma from_yaml_relative_error_witness :
  ∃ docs pre c post lines s rel,
    cookies Documents.unseen_reference = Some docs
    ∧ docs = pre ++ c :: post ∧ doc_name c = "Beta"
    ∧ doc_requirements c = Some lines ∧ IStr s ∈ lines
    ∧ parse_valid_requirement Collaborators.Normal_parse
        Collaborators.Range_parse Collaborators.Equality_parse
        Collaborators.Relative_parse s = Some (VRelative rel)
    ∧ cookie rel ∉ doc_name <$> pre.
Proof.
  apply (from_yaml_relative_error Collaborators.Normal_parse
           Collaborators.Range_parse Collaborators.Equality_parse
           Collaborators.Relative_parse Collaborators.Cookie_get_resonant
           Collaborators.EDMG_bounds Collaborators.Vitality_bounds
           Documents.unseen_reference "Beta").
  vm_compute. reflexivity.
Defined.

(* ===================================================================== *)
(** * The value of a topping set *)
(* ===================================================================== *)








(* ===================================================================== *)
(** * [sanitize] a second time, and the legacy Vitality clause *)
(* ===================================================================== *)

Lemma convert_requirement_idempotent item :
  convert_requirement (convert_requirement item) = convert_requirement item.
Proof.
  destruct item as [s|d|]; simpl; [done| |done].
  destruct (odict_get "max" d) as [[m| |]|] eqn:Hmax; simpl;
    try by rewrite Hmax.
  case_bool_decide as Hm; simpl; [done|]. rewrite Hmax. simpl.
  by rewrite bool_decide_eq_false_2.
Qed.

Lemma sanitize_cookie_idempotent c :
  sanitize_cookie (sanitize_cookie c) = sanitize_cookie c.
Proof.
  unfold sanitize_cookie. simpl. f_equal.
  destruct (doc_requirements c) as [lines|]; simpl; [|done].
  f_equal. rewrite map_map. apply map_ext, convert_requirement_idempotent.
Qed.

Lemma filter_all {A} (P : A → Prop) `{∀ x, Decision (P x)} (l : list A) :
  Forall P l → filter P l = l.
Proof.
  induction 1 as [|x l Hx _ IH]; [done|].
  by rewrite filter_cons_True, IH.
Qed.

(** The loop of [sanitize] over headings that hold nothing to filter
    stores each of them as it is. *)
Lemma filter_loop_clean acc l :
  NoDup (acc.*1 ++ l.*1) →
  Forall (λ item, item.2 ≠ [] ∧ is_Some (Type_lookup item.1)
                  ∧ Forall (λ m, ¬ baseline_duplicate item.1 m) item.2) l →
  foldlM filter_step acc l = Ok (acc ++ l).
Proof.
  revert acc. induction l as [|[stat mods] l IH]; intros acc Hnodup Hl.
  - simpl. by rewrite app_nil_r.
  - apply Forall_cons in Hl as [(Hne & [t Ht] & Hclean) Hl]. simpl in *.
    rewrite (filter_mods_known _ _ _ Ht).
    rewrite filter_all.
    2:{ eapply Forall_impl; [exact Hclean|]. intros m Hm Hb. apply Hm.
        by exists t. }
    simpl. destruct mods as [|m mods]; [done|].
    assert (stat ∉ acc.*1) as Hfresh.
    { apply NoDup_app in Hnodup as (_ & Hdisj & _). intros Hin.
      apply (Hdisj _ Hin). apply list_elem_of_here. }
    rewrite odict_set_fresh by (by apply odict_get_None). simpl.
    rewrite IH; [by rewrite <- app_assoc | | done].
    rewrite fmap_app, <- app_assoc. done.
Qed.

(** Sanitizing a sanitized document changes nothing. *)
Theorem sanitize_idempotent (requirements : Document)
    (rem_leaderboard : bool) (sanitized : Document) :
  sanitize requirements rem_leaderboard = Ok sanitized →
  sanitize sanitized rem_leaderboard = Ok sanitized.
Proof.
  intros Hsan. set (declared := default [] (modifiers requirements)).
  assert (Forall readable declared) as Hread.
  { destruct (first_unreadable declared)
      as [Hread | (known & item & rest & Hsplit & Hk & Hi)]; [done|].
    unfold sanitize in Hsan. fold declared in Hsan.
    rewrite Hsplit, (filter_loop_raise _ _ _ Hk Hi) in Hsan. done. }
  destruct (filter_loop_Ok declared Hread)
    as (filtered & Hloop & Hnodup & Hclean & _).
  unfold sanitize in Hsan. fold declared in Hsan. rewrite Hloop in Hsan.
  simpl in Hsan. injection Hsan as <-. unfold sanitize. simpl.
  assert (foldlM filter_step []
            (default [] match filtered with
                        | [] => modifiers requirements
                        | _ :: _ => Some filtered
                        end) = Ok filtered) as ->.
  { destruct filtered as [|item filtered]; [exact Hloop|].
    apply (filter_loop_clean []); [done|].
    eapply Forall_impl; [exact Hclean|].
    intros item' (Hne & Hdup & mods & Hin & Hsub). split; [done|].
    split; [|done].
    rewrite Forall_forall in Hread.
    destruct (Hread _ Hin) as [Hnil | Hsome]; [|done]. simpl in *.
    subst mods. destruct (item'.2) as [|m ?]; [done|].
    exfalso. apply (elem_of_nil m), Hsub, list_elem_of_here. }
  simpl. f_equal. f_equal.
  - by destruct filtered.
  - by destruct rem_leaderboard.
  - destruct (cookies requirements) as [docs|]; simpl; [|done].
    f_equal. rewrite map_map. apply map_ext, sanitize_cookie_idempotent.
Qed.

Lemma sanitize_idempotent_witness :
  match sanitize Documents.two_cookies true with
  | Ok sanitized => sanitize sanitized true = Ok sanitized
  | Err _ => False
  end.
Proof.
  destruct (sanitize Documents.two_cookies true) as [sanitized|e] eqn:Hsan.
  - exact (sanitize_idempotent _ _ _ Hsan).
  - vm_compute in Hsan. discriminate.
Defined.

Lemma odict_get_filter_ne {V} (k k0 : string) (d : list (string * V)) :
  k ≠ k0 → odict_get k (filter (λ kv, kv.1 ≠ k0) d) = odict_get k d.
Proof.
  intros Hk. induction d as [|[k' v] d IH]; [done|].
  rewrite filter_cons. simpl. destruct (decide (k' ≠ k0)) as [Hk' | Hk'].
  - simpl. by rewrite IH.
  - rewrite IH. apply dec_stable in Hk'. subst k'.
    by rewrite decide_False.
Qed.

Lemma mapMr_ext {A B} (f g : A → result B) l :
  (∀ x, f x = g x) → mapMr f l = mapMr g l.
Proof. intros Hfg. induction l as [|x l IH]; simpl; [done|]. by rewrite Hfg, IH. Qed.

Lemma Type_value_not_max s : Type_value s ≠ "max".
Proof. by destruct s. Qed.

Section legacy_vitality.
Context (EDMG_bounds Vitality_bounds : gmap Type_ Decimal → gmap Type_ Bounds).

(** An objective clause written [max: E[Vit]] cannot be loaded as it is:
    [E[Vit]] is not the value of a [Type] member.  [sanitize] turns it
    into a clause on [Vitality] that keeps every other entry, and from
    that clause [parse_objective_requirement] builds the Vitality
    objective with the overrides of the original clause. *)
Theorem sanitize_legacy_vitality (clause : list (string * YVal))
    (cookie_mods : gmap Type_ Decimal) :
  odict_get "max" clause = Some (YStr "E[Vit]") →
  parse_objective_requirement EDMG_bounds Vitality_bounds clause cookie_mods
  = Err (EnumValueError "E[Vit]")
  ∧ ∃ converted,
      convert_requirement (IDict clause) = IDict converted
      ∧ odict_get "max" converted = Some (YStr "Vitality")
      ∧ (∀ k, k ≠ "max" → odict_get k converted = odict_get k clause)
      ∧ parse_objective_requirement EDMG_bounds Vitality_bounds converted
          cookie_mods
        = (m ← add_overrides clause cookie_mods;
           Ok (Vitality m (Vitality_bounds m), m)).
Proof.
  intros Hmax. split.
  { unfold parse_objective_requirement. by rewrite Hmax. }
  unfold convert_requirement. rewrite Hmax. simpl.
  eexists. split; [done|].
  assert (∀ k, k ≠ "max" →
            odict_get k (("max", YStr "Vitality")
                           :: filter (λ kv, kv.1 ≠ "max") clause)
            = odict_get k clause) as Hother.
  { intros k Hk. simpl. rewrite decide_False by done.
    by apply odict_get_filter_ne. }
  split; [done|]. split; [exact Hother|].
  unfold parse_objective_requirement. simpl.
  assert (add_overrides (("max", YStr "Vitality")
                           :: filter (λ kv, kv.1 ≠ "max") clause) cookie_mods
          = add_overrides clause cookie_mods) as ->; [|done].
  unfold add_overrides. f_equal. apply mapMr_ext. intros [s total].
  unfold override. by rewrite Hother by apply Type_value_not_max.
Qed.

End legacy_vitality.

Lemma sanitize_legacy_vitality_witness :
  let clause := [("max", YStr "E[Vit]"); ("ATK", YNum (dec 5))] in
  parse_objective_requirement Collaborators.EDMG_bounds
    Collaborators.Vitality_bounds clause default_mods
  = Err (EnumValueError "E[Vit]")
  ∧ ∃ converted,
      convert_requirement (IDict clause) = IDict converted
      ∧ odict_get "max" converted = Some (YStr "Vitality")
      ∧ (∀ k, k ≠ "max" → odict_get k converted = odict_get k clause)
      ∧ parse_objective_requirement Collaborators.EDMG_bounds
          Collaborators.Vitality_bounds converted default_mods
        = (m ← add_overrides clause default_mods;
           Ok (Vitality m (Collaborators.Vitality_bounds m), m)).
Proof.
  exact (sanitize_legacy_vitality Collaborators.EDMG_bounds
           Collaborators.Vitality_bounds
           [("max", YStr "E[Vit]"); ("ATK", YNum (dec 5))] default_mods
           eq_refl).
Defined.
